(** * wt-tracker: the uWebSockets gateway ([src/lib/uws-tracker.ts])

    A shallow embedding of the class [UWebSocketsTracker]: its constructor
    (settings merge), the four transport handlers registered by
    [buildApplication] (open, message, drain, close), the send capability of
    a Peer Identity and the [run] method, followed by the properties the
    specification states about them.

    Modelling conventions.
    - JavaScript values are the inductive [jsval]; numbers are the integers
      (ports, sizes, levels and counters are integers in this code); a
      string is a sequence of code units below 256.
    - An object is its list of own properties in property order.
    - Identity objects live in a heap ([list PeerContext]) and are named by
      their address, so that "the same object" is equality of addresses.
    - The registry ([Tracker]), the JSON codec and the UTF-8 decoder are
      collaborators of the gateway: the handlers take them as parameters.
      The codec is also modelled on its own, in [JSON].
    - A handler is a computation in the monad [M]: it reads and updates the
      gateway object, emits effects (console output, transport commands,
      calls into the registry) and may raise. *)

From Stdlib Require Import ZArith List String Ascii Lia.
From Stdlib Require Import DecimalString DecimalFacts DecimalN.
From stdpp Require Import gmap strings list pretty.

Set Warnings "-register-all".
Open Scope Z_scope.

(** ** JavaScript values *)

Inductive jsval : Type :=
| JUndefined
| JNull
| JBool (b : bool)
| JNum (n : Z)
| JStr (s : string)
| JArr (items : list jsval)
| JObj (props : list (string * jsval)).

(** ToBoolean. *)
Definition truthy (v : jsval) : bool :=
  match v with
  | JUndefined | JNull => false
  | JBool b => b
  | JNum n => negb (n =? 0)
  | JStr s => negb (String.eqb s "")
  | JArr _ | JObj _ => true
  end.

(** [v === n] for a number literal [n], and [v === undefined]. *)
Definition strict_eq_num (v : jsval) (n : Z) : bool :=
  match v with JNum m => m =? n | _ => false end.

Definition is_undefined (v : jsval) : bool :=
  match v with JUndefined => true | _ => false end.

(** Own-property lookup in a property list. *)
Fixpoint prop_lookup (k : string) (o : list (string * jsval)) : option jsval :=
  match o with
  | [] => None
  | (k', v) :: o' => if String.eqb k k' then Some v else prop_lookup k o'
  end.

(** [v.k] for a property name [k] that is neither an array index nor a
    built-in member: an own property of an object, [undefined] elsewhere. *)
Definition js_get (k : string) (v : jsval) : jsval :=
  match v with
  | JObj o => default JUndefined (prop_lookup k o)
  | _ => JUndefined
  end.

(** Array indices: canonical decimal strings of the integers below 2^32 - 1.
    Own properties are ordered with the array indices first, ascending, and
    the other keys after them in creation order. *)
Definition is_digit (c : ascii) : bool :=
  let n := N_of_ascii c in ((48 <=? n) && (n <=? 57))%N.

Fixpoint digits_value (acc : N) (s : string) : option N :=
  match s with
  | EmptyString => Some acc
  | String c s' =>
      if is_digit c then digits_value (10 * acc + (N_of_ascii c - 48))%N s'
      else None
  end.

Definition array_index (k : string) : option N :=
  match k with
  | EmptyString => None
  | String c rest =>
      if Ascii.eqb c "0" && negb (String.eqb rest "") then None
      else match digits_value 0%N k with
           | Some n => if (n <? 4294967295)%N then Some n else None
           | None => None
           end
  end.

(** Place a new array-index key [n] among the properties. *)
Fixpoint insert_index (n : N) (k : string) (v : jsval)
    (o : list (string * jsval)) : list (string * jsval) :=
  match o with
  | [] => [(k, v)]
  | (k', v') :: o' =>
      match array_index k' with
      | Some m => if (m <? n)%N then (k', v') :: insert_index n k v o'
                  else (k, v) :: o
      | None => (k, v) :: o
      end
  end.

Fixpoint prop_replace (k : string) (v : jsval)
    (o : list (string * jsval)) : list (string * jsval) :=
  match o with
  | [] => []
  | (k', v') :: o' =>
      if String.eqb k k' then (k', v) :: o' else (k', v') :: prop_replace k v o'
  end.

(** Define or overwrite the own property [k]. *)
Definition prop_set (k : string) (v : jsval)
    (o : list (string * jsval)) : list (string * jsval) :=
  match prop_lookup k o with
  | Some _ => prop_replace k v o
  | None =>
      match array_index k with
      | Some n => insert_index n k v o
      | None => o ++ [(k, v)]
      end
  end.

(** The own enumerable properties a spread [...v] copies. *)
Definition indexed (l : list jsval) : list (string * jsval) :=
  imap (fun i x => (pretty (N.of_nat i), x)) l.

Definition chars (s : string) : list jsval :=
  map (fun c => JStr (String c EmptyString)) (list_ascii_of_string s).

Definition own_props (v : jsval) : list (string * jsval) :=
  match v with
  | JObj o => o
  | JArr l => indexed l
  | JStr s => indexed (chars s)
  | _ => []
  end.

(** The object literal [{ ...fields, ...src }]. *)
Definition spread_over (fields : list (string * jsval)) (src : jsval)
    : list (string * jsval) :=
  fold_left (fun o kv => prop_set (fst kv) (snd kv) o) (own_props src) fields.

(** ToString, as a template literal applies it. A value has a text, or
    the conversion throws a [TypeError], or the text lies outside the model.
    - A number has its decimal digits within the safe integers; beyond them
      the platform prints the shortest digits of the floating-point number,
      in exponent notation from 10^21 on.
    - An array is joined with commas, [undefined] and [null] elements
      giving the empty text, the elements converted from left to right.
    - An object without an own [toString] property inherits the method that
      answers ["[object Object]"]. An own [toString] property hides that
      method; no value of the model is callable, so it is passed over, and
      so is an own [valueOf] property, while the inherited [valueOf] gives
      back the object: the conversion throws. *)
Inductive to_string : Type :=
| Text (s : string)
| ThrowsTypeError
| BeyondModel.

Definition text_then (r : to_string) (f : string -> to_string) : to_string :=
  match r with
  | Text s => f s
  | ThrowsTypeError => ThrowsTypeError
  | BeyondModel => BeyondModel
  end.

Definition MAX_SAFE_INTEGER : Z := 9007199254740991.

Fixpoint js_to_string (v : jsval) : to_string :=
  match v with
  | JUndefined => Text "undefined"
  | JNull => Text "null"
  | JBool true => Text "true"
  | JBool false => Text "false"
  | JNum n =>
      if Z.abs n <=? MAX_SAFE_INTEGER then Text (pretty n) else BeyondModel
  | JStr s => Text s
  | JArr l =>
      (fix join (l : list jsval) : to_string :=
         match l with
         | [] => Text ""
         | x :: l' =>
             text_then
               match x with
               | JUndefined | JNull => Text ""
               | _ => js_to_string x
               end
               (fun s =>
                  match l' with
                  | [] => Text s
                  | _ :: _ =>
                      text_then (join l') (fun t => Text (s +:+ "," +:+ t))
                  end)
         end) l
  | JObj o =>
      match prop_lookup "toString" o with
      | Some _ => ThrowsTypeError
      | None => Text "[object Object]"
      end
  end.

(** [Buffer.from(s).toString("hex")]: the UTF-8 bytes of [s], two lowercase
    hexadecimal digits each. *)
Definition utf8_bytes (c : ascii) : list N :=
  let n := N_of_ascii c in
  if (n <? 128)%N then [n] else [192 + n / 64; 128 + n mod 64]%N.

Definition hex_digit (d : N) : ascii :=
  ascii_of_N (if (d <? 10)%N then 48 + d else 87 + d)%N.

Definition hex_byte (b : N) : string :=
  String (hex_digit (b / 16)) (String (hex_digit (b mod 16)) EmptyString).

Definition Buffer_hex (s : string) : string :=
  String.concat "" (map hex_byte (flat_map utf8_bytes (list_ascii_of_string s))).

(** The payload of a text frame: [ws.send] of a string writes its UTF-8
    bytes. *)
Definition utf8_encode (s : string) : list Byte.byte :=
  map (fun n => byte_of_ascii (ascii_of_N n))
    (flat_map utf8_bytes (list_ascii_of_string s)).

(** [StringDecoder.end] of a whole payload, where the text is one of the
    model: the bytes below 128 stand for themselves, and a byte 194 or 195
    with a continuation byte for a code unit from 128 to 255. Any other
    sequence is a code point above 255 or is malformed, which the decoder
    replaces by the code point 65533: no text of the model. *)
Fixpoint utf8_decode (bytes : list Byte.byte) : option string :=
  match bytes with
  | [] => Some EmptyString
  | b :: rest =>
      let n := Byte.to_N b in
      if (n <? 128)%N then
        match utf8_decode rest with
        | Some s => Some (String (ascii_of_N n) s)
        | None => None
        end
      else
        match rest with
        | c :: rest' =>
            let m := Byte.to_N c in
            if ((n =? 194) || (n =? 195))%N && (128 <=? m)%N && (m <? 192)%N
            then match utf8_decode rest' with
                 | Some s =>
                     Some (String (ascii_of_N ((n - 192) * 64 + (m - 128))) s)
                 | None => None
                 end
            else None
        | [] => None
        end
  end.

(** Well-formed values: the own properties of an object are in property
    order (array indices first, ascending; then the other keys, each
    once). *)
Fixpoint keys_ordered (ks : list string) : bool :=
  match ks with
  | [] => true
  | k :: ks' =>
      match array_index k with
      | Some n =>
          forallb (λ k', match array_index k' with
                         | Some m => (n <? m)%N
                         | None => true
                         end) ks'
      | None =>
          forallb (λ k', match array_index k' with
                         | Some _ => false
                         | None => negb (String.eqb k k')
                         end) ks'
      end && keys_ordered ks'
  end.

Fixpoint js_wf (v : jsval) : bool :=
  match v with
  | JArr l => forallb js_wf l
  | JObj o => keys_ordered (map fst o) && forallb (λ '(_, x), js_wf x) o
  | _ => true
  end.

(** ** Settings (constructor, lines 36-51) *)

Definition default_server : list (string * jsval) :=
  [("port", JNum 8000); ("host", JStr "0.0.0.0")]%string.

Definition default_websockets : list (string * jsval) :=
  [("path", JStr "/"); ("maxPayloadLength", JNum (64 * 1024));
   ("idleTimeout", JNum 240); ("compression", JNum 1);
   ("logLevel", JNum 0)]%string.

(** [(settings && settings.k) ? settings.k : {}] *)
Definition section_or_empty (k : string) (settings : jsval) : jsval :=
  if truthy (if truthy settings then js_get k settings else settings)
  then js_get k settings
  else JObj [].

(** The default parameter value [settings: any = {}]. *)
Definition default_param (settings : jsval) : jsval :=
  if is_undefined settings then JObj [] else settings.

Definition merge_settings (arg : jsval) : jsval :=
  let settings := default_param arg in
  JObj [("server",
          JObj (spread_over default_server (section_or_empty "server" settings)));
        ("websockets",
          JObj (spread_over default_websockets
                  (section_or_empty "websockets" settings)))]%string.


(** ** The message codec *)

(** Modelled from the spec: the Message Codec of section 4.1. The gateway
    encodes with [JSON.stringify] and decodes with [JSON.parse], built-ins of
    the platform that are not part of the sources; they are modelled here
    after the JSON grammar, on the values of [jsval]. An integer is printed
    in decimal, as the platform prints the safe integers. A text whose
    meaning lies outside the value model (a number with a fraction or an
    exponent, a negative zero, an integer beyond the safe range, an escaped
    code unit above 255) is neither accepted nor refused: the parser
    answers [Unmodelled]. An object is built as the platform builds it: a
    repeated key overwrites, and array-index keys come first. *)
Module JSON.

Definition dquote : ascii := "034".
Definition backslash : ascii := "092".

Definition N_to_string (n : N) : string :=
  NilEmpty.string_of_uint (N.to_uint n).

Definition Z_to_string (z : Z) : string :=
  if z <? 0 then String "-" (N_to_string (Z.abs_N z))
  else N_to_string (Z.to_N z).

(** QuoteJSONString. *)
Definition escape_char (c : ascii) : string :=
  let n := N_of_ascii c in
  if (n =? 34)%N then String backslash (String dquote "")
  else if (n =? 92)%N then String backslash (String backslash "")
  else if (n =? 8)%N then String backslash "b"
  else if (n =? 12)%N then String backslash "f"
  else if (n =? 10)%N then String backslash "n"
  else if (n =? 13)%N then String backslash "r"
  else if (n =? 9)%N then String backslash "t"
  else if (n <? 32)%N then String backslash ("u00" +:+ hex_byte n)
  else String c "".

Fixpoint escape (s : string) : string :=
  match s with
  | EmptyString => ""
  | String c s' => escape_char c +:+ escape s'
  end.

Definition quote (s : string) : string :=
  String dquote (escape s +:+ String dquote "").

(** [JSON.stringify(v)]; [None] is the result [undefined]. *)
Fixpoint stringify (v : jsval) : option string :=
  match v with
  | JUndefined => None
  | JNull => Some "null"
  | JBool true => Some "true"
  | JBool false => Some "false"
  | JNum n => Some (Z_to_string n)
  | JStr s => Some (quote s)
  | JArr l =>
      Some ("[" +:+ String.concat ","
                      (map (λ x, default "null" (stringify x)) l) +:+ "]")
  | JObj o =>
      Some ("{" +:+ String.concat ","
                      (omap (λ '(k, x),
                         match stringify x with
                         | Some t => Some (quote k +:+ ":" +:+ t)
                         | None => None
                         end) o) +:+ "}")
  end.

Inductive parsed (A : Type) : Type :=
| Ok (a : A)
| SyntaxError
| Unmodelled.
Arguments Ok {A} a.
Arguments SyntaxError {A}.
Arguments Unmodelled {A}.

Definition and_then {A B} (p : parsed A) (f : A → parsed B) : parsed B :=
  match p with
  | Ok a => f a
  | SyntaxError => SyntaxError
  | Unmodelled => Unmodelled
  end.

Definition is_ws (c : ascii) : bool :=
  let n := N_of_ascii c in
  ((n =? 32) || (n =? 9) || (n =? 10) || (n =? 13))%N.

Fixpoint skip_ws (s : string) : string :=
  match s with
  | String c s' => if is_ws c then skip_ws s' else s
  | EmptyString => s
  end.

Fixpoint strip_prefix (p s : string) : option string :=
  match p, s with
  | EmptyString, _ => Some s
  | String a p', String b s' => if Ascii.eqb a b then strip_prefix p' s' else None
  | _, _ => None
  end.

(** Numbers: an optional minus sign and an integer without superfluous
    leading zero, within the safe integers. *)
Fixpoint span_digits (s : string) : string * string :=
  match s with
  | String c s' =>
      if is_digit c then let (d, r) := span_digits s' in (String c d, r)
      else ("", s)
  | EmptyString => ("", "")
  end.

Definition continues_number (s : string) : bool :=
  match s with
  | String c _ => Ascii.eqb c "." || Ascii.eqb c "e" || Ascii.eqb c "E"
  | EmptyString => false
  end.

Definition max_safe_integer : N := 9007199254740991.

Definition parse_nat (s : string) : parsed (N * string) :=
  let (ds, rest) := span_digits s in
  match ds, NilEmpty.uint_of_string ds with
  | String _ _, Some d =>
      if Decimal.uint_beq d (Decimal.unorm d)
      then if continues_number rest then Unmodelled
           else if (N.of_uint d <=? max_safe_integer)%N
                then Ok (N.of_uint d, rest)
                else Unmodelled
      else SyntaxError
  | _, _ => SyntaxError
  end.

Definition parse_number (s : string) : parsed (Z * string) :=
  match s with
  | String c s' =>
      if Ascii.eqb c "-"
      then and_then (parse_nat s')
             (λ '(n, r), if (n =? 0)%N then Unmodelled else Ok (- Z.of_N n, r))
      else and_then (parse_nat s) (λ '(n, r), Ok (Z.of_N n, r))
  | EmptyString => SyntaxError
  end.

(** Strings. *)
Definition hex_value (c : ascii) : option N :=
  let n := N_of_ascii c in
  if ((48 <=? n) && (n <=? 57))%N then Some (n - 48)%N
  else if ((97 <=? n) && (n <=? 102))%N then Some (n - 87)%N
  else if ((65 <=? n) && (n <=? 70))%N then Some (n - 55)%N
  else None.

Definition hex4_value (a b c d : ascii) : option N :=
  match hex_value a, hex_value b, hex_value c, hex_value d with
  | Some x, Some y, Some z, Some w => Some (((x * 16 + y) * 16 + z) * 16 + w)%N
  | _, _, _, _ => None
  end.

Definition unescape (c : ascii) : option ascii :=
  let n := N_of_ascii c in
  if (n =? 34)%N || (n =? 92)%N || (n =? 47)%N then Some c
  else if (n =? 98)%N then Some (ascii_of_N 8)
  else if (n =? 102)%N then Some (ascii_of_N 12)
  else if (n =? 110)%N then Some (ascii_of_N 10)
  else if (n =? 114)%N then Some (ascii_of_N 13)
  else if (n =? 116)%N then Some (ascii_of_N 9)
  else None.

Definition prepend (c : ascii) (p : parsed (string * string))
    : parsed (string * string) :=
  and_then p (λ '(s, rest), Ok (String c s, rest)).

(** The characters of a string literal after its opening quote. *)
Fixpoint parse_chars (s : string) : parsed (string * string) :=
  match s with
  | EmptyString => SyntaxError
  | String c s' =>
      if Ascii.eqb c dquote then Ok ("", s')
      else if Ascii.eqb c backslash then
        match s' with
        | String e s'' =>
            if Ascii.eqb e "u" then
              match s'' with
              | String h1 (String h2 (String h3 (String h4 r))) =>
                  match hex4_value h1 h2 h3 h4 with
                  | Some n =>
                      if (n <? 256)%N then prepend (ascii_of_N n) (parse_chars r)
                      else Unmodelled
                  | None => SyntaxError
                  end
              | _ => SyntaxError
              end
            else match unescape e with
                 | Some ch => prepend ch (parse_chars s'')
                 | None => SyntaxError
                 end
        | EmptyString => SyntaxError
        end
      else if (N_of_ascii c <? 32)%N then SyntaxError
      else prepend c (parse_chars s')
  end.

Definition literal (word : string) (v : jsval) (s : string)
    : parsed (jsval * string) :=
  match strip_prefix word s with
  | Some rest => Ok (v, rest)
  | None => SyntaxError
  end.

(** Values, elements of an array after the first bracket, members of an
    object after the first brace. [fuel] bounds the depth of the calls;
    running out of it is [Unmodelled]. *)
Fixpoint parse_value (fuel : nat) (s : string) : parsed (jsval * string) :=
  match fuel with
  | O => Unmodelled
  | S fuel =>
      match skip_ws s with
      | EmptyString => SyntaxError
      | String c r as s1 =>
          if Ascii.eqb c "{" then
            match skip_ws r with
            | String c' r' as r1 =>
                if Ascii.eqb c' "}" then Ok (JObj [], r')
                else parse_members fuel r1 []
            | EmptyString => SyntaxError
            end
          else if Ascii.eqb c "[" then
            match skip_ws r with
            | String c' r' as r1 =>
                if Ascii.eqb c' "]" then Ok (JArr [], r')
                else parse_elements fuel r1 []
            | EmptyString => SyntaxError
            end
          else if Ascii.eqb c dquote then
            and_then (parse_chars r) (λ '(str, rest), Ok (JStr str, rest))
          else if Ascii.eqb c "t" then literal "true" (JBool true) s1
          else if Ascii.eqb c "f" then literal "false" (JBool false) s1
          else if Ascii.eqb c "n" then literal "null" JNull s1
          else and_then (parse_number s1) (λ '(n, rest), Ok (JNum n, rest))
      end
  end
with parse_elements (fuel : nat) (s : string) (acc : list jsval)
    : parsed (jsval * string) :=
  match fuel with
  | O => Unmodelled
  | S fuel =>
      and_then (parse_value fuel s) (λ '(v, r),
        match skip_ws r with
        | String c r' =>
            if Ascii.eqb c "," then parse_elements fuel r' (acc ++ [v])
            else if Ascii.eqb c "]" then Ok (JArr (acc ++ [v]), r')
            else SyntaxError
        | EmptyString => SyntaxError
        end)
  end
with parse_members (fuel : nat) (s : string) (acc : list (string * jsval))
    : parsed (jsval * string) :=
  match fuel with
  | O => Unmodelled
  | S fuel =>
      match skip_ws s with
      | String c r =>
          if Ascii.eqb c dquote then
            and_then (parse_chars r) (λ '(k, r1),
              match skip_ws r1 with
              | String c1 r2 =>
                  if Ascii.eqb c1 ":" then
                    and_then (parse_value fuel r2) (λ '(v, r3),
                      match skip_ws r3 with
                      | String c3 r4 =>
                          if Ascii.eqb c3 "," then
                            parse_members fuel r4 (prop_set k v acc)
                          else if Ascii.eqb c3 "}" then
                            Ok (JObj (prop_set k v acc), r4)
                          else SyntaxError
                      | EmptyString => SyntaxError
                      end)
                  else SyntaxError
              | EmptyString => SyntaxError
              end)
          else SyntaxError
      | EmptyString => SyntaxError
      end
  end.

(** [JSON.parse(text)]. *)
Definition parse (text : string) : parsed jsval :=
  and_then (parse_value (S (String.length text)) text) (λ '(v, rest),
    match skip_ws rest with
    | EmptyString => Ok v
    | String _ _ => SyntaxError
    end).

(** What may follow the text of a value inside a text: nothing, a comma or
    a closing bracket. *)
Definition delimited (rest : string) : bool :=
  match rest with
  | EmptyString => true
  | String c _ => Ascii.eqb c "," || Ascii.eqb c "]" || Ascii.eqb c "}"
  end.

(** The values the codec carries, those [parse] can produce: no
    [undefined], integers within the safe range, the properties of objects
    in property order. *)
Fixpoint json_data (v : jsval) : bool :=
  match v with
  | JUndefined => false
  | JNull | JBool _ | JStr _ => true
  | JNum n => Z.abs n <=? Z.of_N max_safe_integer
  | JArr l => forallb json_data l
  | JObj o => keys_ordered (map fst o) && forallb (λ '(_, x), json_data x) o
  end.

(** A bound on the fuel the parser needs for the text of [v]. *)
Fixpoint weight (v : jsval) : nat :=
  match v with
  | JArr l => S (list_sum (map (λ x, S (weight x)) l))
  | JObj o => S (list_sum (map (λ '(_, x), S (weight x)) o))
  | _ => 1
  end.

(** The characters a value can start with. *)
Definition value_start (c : ascii) : bool :=
  Ascii.eqb c "n" || Ascii.eqb c "t" || Ascii.eqb c "f" || Ascii.eqb c "-"
  || is_digit c || Ascii.eqb c dquote || Ascii.eqb c "[" || Ascii.eqb c "{".

(** Induction on values, through arrays and objects. *)
Fixpoint jsval_ind' (P : jsval → Prop)
    (Hundef : P JUndefined) (Hnull : P JNull)
    (Hbool : ∀ b, P (JBool b)) (Hnum : ∀ n, P (JNum n))
    (Hstr : ∀ s, P (JStr s))
    (Harr : ∀ l, Forall P l → P (JArr l))
    (Hobj : ∀ o, Forall (λ kv, P kv.2) o → P (JObj o))
    (v : jsval) : P v :=
  match v with
  | JUndefined => Hundef
  | JNull => Hnull
  | JBool b => Hbool b
  | JNum n => Hnum n
  | JStr s => Hstr s
  | JArr l =>
      Harr l ((fix go (l : list jsval) : Forall P l :=
                 match l with
                 | [] => List.Forall_nil P
                 | x :: l' =>
                     List.Forall_cons P x l'
                       (jsval_ind' P Hundef Hnull Hbool Hnum Hstr Harr Hobj x)
                       (go l')
                 end) l)
  | JObj o =>
      Hobj o ((fix go (o : list (string * jsval)) : Forall (λ kv, P kv.2) o :=
                 match o with
                 | [] => List.Forall_nil _
                 | kv :: o' =>
                     List.Forall_cons (λ kv, P kv.2) kv o'
                       (jsval_ind' P Hundef Hnull Hbool Hnum Hstr Harr Hobj kv.2)
                       (go o')
                 end) o)
  end.

(** [v] is read back from its text, whatever follows the text, given fuel
    for its weight. *)
Definition roundtrips (v : jsval) : Prop :=
  json_data v = true → ∀ fuel rest, (weight v ≤ fuel)%nat → delimited rest = true →
  ∃ t, stringify v = Some t ∧ parse_value fuel (t +:+ rest) = Ok (v, rest).

(** The texts of an element of an array and of a member of an object. *)
Definition element_text (x : jsval) : string := default "null" (stringify x).

Definition member_text (kv : string * jsval) : option string :=
  let '(k, x) := kv in
  match stringify x with
  | Some t => Some (quote k +:+ ":" +:+ t)
  | None => None
  end.

End JSON.


(** ** Transport, registry and console interfaces *)

(** A connection is an opaque transport handle; an identity object is named
    by its address in the heap. *)
Definition conn := nat.
Definition ref := nat.

(** What a [throw] carries: a [TrackerError], another error object (its
    class name and message), or any other value. *)
Inductive exn : Type :=
| TrackerError (message : string)
| OtherError (name message : string)
| Thrown (v : jsval).

Definition instanceof_TrackerError (e : exn) : bool :=
  match e with TrackerError _ => true | _ => false end.

(** Modelled from the spec: the declaration of [PeerContext] (module
    [./tracker]) is not part of the sources; section 6 gives it as
    [{ id?: opaque identifier, sendMessage(structured value) -> void }].
    [peer_id] is the optional identifier the registry assigns; [socket] is
    the connection the [sendMessage] closure created at lines 92-95 captures. *)
Record PeerContext : Type := { peer_id : option string; socket : conn }.

(** The transport events, with the values the handler can query from the
    transport objects it is handed ([request.getUrl()],
    [message.byteLength], [ws.getBufferedAmount()]). *)
Inductive event : Type :=
| Open (ws : conn) (url : string)
| Message (ws : conn) (message : list Byte.byte) (isBinary : bool)
| Drain (ws : conn) (bufferedAmount : Z)
| Close (ws : conn) (code : Z) (message : list Byte.byte).

Definition event_ws (ev : event) : conn :=
  match ev with
  | Open ws _ | Message ws _ _ | Drain ws _ | Close ws _ _ => ws
  end.

Inductive console_method : Type := Info | Warn | Log.

Inductive logged : Type := V (v : jsval) | E (e : exn).

(** What a handler does to the outside: console output, commands to the
    transport, creation of an identity object, calls into the registry. *)
Inductive effect : Type :=
| console (method : console_method) (args : list logged)
| ws_close (ws : conn)
| ws_send (ws : conn) (data : option string) (isBinary compress : bool)
| new_PeerContext (ws : conn) (peer : ref)
| call_processMessage (json : jsval) (peer : ref)
| call_disconnectPeer (peer : ref).

(** What the registry does with the identity objects it holds while one of
    its operations runs: assign [id], or invoke a send capability. *)
Inductive action : Type :=
| SetId (peer : ref) (id : option string)
| SendMessage (peer : ref) (json : jsval).

Inductive app_kind : Type := App | SSLApp.

(** The fields of the class. *)
Record UWebSocketsTracker : Type := {
  app_ : app_kind;
  logLevel : jsval;
  webSocketsCount : Z;
  settings : jsval
}.

Inductive promise : Type := Pending | Fulfilled | Rejected (e : exn).

(** Settling a promise: only a pending promise changes. *)
Definition resolve (p : promise) : promise :=
  match p with Pending => Fulfilled | _ => p end.

Definition reject (e : exn) (p : promise) : promise :=
  match p with Pending => Rejected e | _ => p end.

(** What an operation of the registry does when called: the registry's next
    state, what it did with the identity objects meanwhile, and whether it
    ended by raising. *)
Record reply (T : Type) : Type := {
  next : T;
  actions : list action;
  throws : option exn
}.
Arguments next {T} r.
Arguments actions {T} r.
Arguments throws {T} r.

(** Everything the handlers read or write: the gateway object, the
    registry, the [peer] property of every connection object, and the
    identity objects. *)
Record world (T : Type) : Type := {
  this : UWebSocketsTracker;
  tracker : T;
  peer_prop : gmap conn ref;
  heap : list PeerContext
}.
Arguments this {T} w.
Arguments tracker {T} w.
Arguments peer_prop {T} w.
Arguments heap {T} w.

(** How a handler ends: it returns, or it raises. *)
Inductive result (A : Type) : Type :=
| Return (a : A)
| Raise (e : exn).
Arguments Return {A} a.
Arguments Raise {A} e.

(** ** A registry and a platform for the examples *)

Definition example_decoder_end (bytes : list Byte.byte) : string :=
  string_of_list_byte bytes.

(** [JSON.parse] as the handlers take it; a text outside the value model is
    refused like a malformed one. *)
Definition example_JSON_parse (text : string) : jsval + exn :=
  match JSON.parse text with
  | JSON.Ok v => inl v
  | _ => inr (OtherError "SyntaxError" "Unexpected token in JSON")
  end.

(** A registry that counts the messages it accepted. It rejects the action
    [reject] with a [TrackerError], fails on the action [crash], and on any
    other message names the peer and acknowledges through its send
    capability. *)
Definition example_processMessage (t : nat) (h : list PeerContext)
    (json : jsval) (peer : ref) : reply nat :=
  match js_get "action" json with
  | JStr a =>
      if String.eqb a "reject"
      then {| next := t; actions := []; throws := Some (TrackerError "rejected") |}
      else if String.eqb a "crash"
      then {| next := t; actions := [];
              throws := Some (OtherError "TypeError" "crash") |}
      else {| next := S t;
              actions := [SetId peer (Some "ab"%string);
                          SendMessage peer (JObj [("action", JStr "ack")]%string)];
              throws := None |}
  | _ => {| next := S t; actions := []; throws := None |}
  end.

Definition example_disconnectPeer (t : nat) (h : list PeerContext) (peer : ref)
    : reply nat :=
  {| next := t; actions := []; throws := None |}.

(** The bytes of the text of a message. *)
Definition payload (v : jsval) : list Byte.byte :=
  list_byte_of_string (default ""%string (JSON.stringify v)).

Definition hello : jsval := JObj [("action", JStr "hello")]%string.
Definition rejected : jsval := JObj [("action", JStr "reject")]%string.
Definition not_json : list Byte.byte := list_byte_of_string "{not json".

(** The lifetime of a connection that sends two messages, and the events
    between its open and its close. *)
Definition example_mid : list event :=
  [Message 0%nat (payload hello) false; Drain 0%nat 0;
   Message 0%nat (payload hello) false].

Definition example_lifetime : list event :=
  Open 0%nat "/" :: example_mid ++ [Close 0%nat 1000 []].

Definition example_settings : jsval :=
  JObj [("server", JObj [("port", JNum 9000)])]%string.

(** A message the registry fails on; a registry whose [disconnectPeer]
    fails; a gateway with one connection, bound to an identity; settings
    that name a key file. *)
Definition crash : jsval := JObj [("action", JStr "crash")]%string.

Definition failing_disconnectPeer (t : nat) (h : list PeerContext) (peer : ref)
    : reply nat :=
  {| next := t; actions := [];
     throws := Some (OtherError "Error" "peer is not known") |}.

Definition example_bound : world nat :=
  {| this := {| app_ := App; logLevel := JNum 0; webSocketsCount := 1;
                settings := merge_settings JUndefined |};
     tracker := 1%nat;
     peer_prop := {[ 0%nat := 0%nat ]};
     heap := [{| peer_id := Some "ab"%string; socket := 0%nat |}] |}.

(** Settings whose host has no text: its own [toString] property hides
    the inherited method. *)
Definition example_hostless_settings : jsval :=
  JObj [("server", JObj [("host", JObj [("toString", JNum 1)])])]%string.

(** A decoder that is [StringDecoder.end] on the payloads of the model, and
    a value with an element that is [undefined]. *)
Definition example_utf8_decoder_end (bytes : list Byte.byte) : string :=
  default (string_of_list_byte bytes) (utf8_decode bytes).

Definition holed : jsval := JArr [JUndefined].

Definition example_tls_settings : jsval :=
  JObj [("server", JObj [("key_file_name", JStr "key.pem");
                         ("cert_file_name", JStr "cert.pem")])]%string.

Section Gateway.

(** The registry: its state, and what each operation does when called
    with the current heap of identity objects. *)
Variable T : Type.

Variable processMessage : T → list PeerContext → jsval → ref → reply T.
Variable disconnectPeer : T → list PeerContext → ref → reply T.

(** The platform: [StringDecoder.end], [JSON.parse] (a [SyntaxError] on
    the right) and [JSON.stringify]. *)
Variable decoder_end : list Byte.byte → string.
Variable JSON_parse : string → jsval + exn.
Variable JSON_stringify : jsval → option string.

Definition set_this (f : UWebSocketsTracker → UWebSocketsTracker) (w : world T) :=
  {| this := f (this w); tracker := tracker w;
     peer_prop := peer_prop w; heap := heap w |}.

Definition set_tracker (t : T) (w : world T) :=
  {| this := this w; tracker := t; peer_prop := peer_prop w; heap := heap w |}.

Definition set_peer_prop (f : gmap conn ref → gmap conn ref) (w : world T) :=
  {| this := this w; tracker := tracker w;
     peer_prop := f (peer_prop w); heap := heap w |}.

Definition set_heap (f : list PeerContext → list PeerContext) (w : world T) :=
  {| this := this w; tracker := tracker w;
     peer_prop := peer_prop w; heap := f (heap w) |}.

Definition add_count (d : Z) (g : UWebSocketsTracker) : UWebSocketsTracker :=
  {| app_ := app_ g; logLevel := logLevel g;
     webSocketsCount := webSocketsCount g + d; settings := settings g |}.

(** *** The handler monad *)

Definition M (A : Type) : Type := world T → result A * world T * list effect.

#[local] Instance M_ret : MRet M := λ A a w, (Return a, w, []).

#[local] Instance M_bind : MBind M := λ A B f m w,
  match m w with
  | (Return a, w1, out1) =>
      match f a w1 with (r, w2, out2) => (r, w2, out1 ++ out2) end
  | (Raise e, w1, out1) => (Raise e, w1, out1)
  end.

Definition get : M (world T) := λ w, (Return w, w, []).
Definition modify (f : world T → world T) : M unit := λ w, (Return tt, f w, []).
Definition emit (e : effect) : M unit := λ w, (Return tt, w, [e]).
Definition raise {A} (e : exn) : M A := λ w, (Raise e, w, []).

Definition try_catch {A} (body : M A) (handler : exn → M A) : M A := λ w,
  match body w with
  | (Return a, w1, out1) => (Return a, w1, out1)
  | (Raise e, w1, out1) =>
      match handler e w1 with (r, w2, out2) => (r, w2, out1 ++ out2) end
  end.

(** [if (this.logLevel === n) console.method(...args)] *)
Definition if_logLevel (n : Z) (method : console_method) (args : list logged)
    : M unit :=
  w ← get;
  if strict_eq_num (logLevel (this w)) n then emit (console method args)
  else mret tt.

(** [id ? Buffer.from(id).toString("hex") : "unknown peer"] *)
Definition peer_label (id : option string) : jsval :=
  match id with
  | Some s => if truthy (JStr s) then JStr (Buffer_hex s) else JStr "unknown peer"
  | None => JStr "unknown peer"
  end.

(** *** The send capability (lines 92-95) *)
Definition sendMessage (peer : ref) (json : jsval) : M unit :=
  w ← get;
  match heap w !! peer with
  | Some ctx =>
      emit (ws_send (socket ctx) (JSON_stringify json) false false);;
      if_logLevel 2 Log [V (JStr "out"); V (peer_label (peer_id ctx)); V json]
  | None => mret tt
  end.

Definition perform (a : action) : M unit :=
  match a with
  | SetId peer id =>
      modify (set_heap (alter (λ ctx, {| peer_id := id; socket := socket ctx |}) peer))
  | SendMessage peer json => sendMessage peer json
  end.

Fixpoint perform_all (l : list action) : M unit :=
  match l with
  | [] => mret tt
  | a :: l' => perform a;; perform_all l'
  end.

(** A call into the registry: the call itself, what the registry does
    with the identity objects meanwhile, and how it ends. *)
Definition call (e : effect) (op : T → list PeerContext → reply T) : M unit :=
  w ← get;
  let r := op (tracker w) (heap w) in
  emit e;;
  modify (set_tracker (next r));;
  perform_all (actions r);;
  match throws r with
  | Some e => raise e
  | None => mret tt
  end.

Definition tracker_processMessage (json : jsval) (peer : ref) : M unit :=
  call (call_processMessage json peer) (λ t h, processMessage t h json peer).

Definition tracker_disconnectPeer (peer : ref) : M unit :=
  call (call_disconnectPeer peer) (λ t h, disconnectPeer t h peer).

(** *** The handlers registered by [buildApplication] (lines 70-125) *)

Definition open (ws : conn) (url : string) : M unit :=
  modify (set_this (add_count 1));;
  if_logLevel 1 Info [V (JStr "ws connected via URL"); V (JStr url)].

Definition message (ws : conn) (message : list Byte.byte) (isBinary : bool)
    : M unit :=
  if_logLevel 1 Info
    [V (JStr "ws message of size"); V (JNum (Z.of_nat (length message)))];;
  parsed ← try_catch
    (match JSON_parse (decoder_end message) with
     | inl json => mret (Some json)
     | inr e => raise e
     end)
    (λ e,
      if_logLevel 1 Warn [V (JStr "failed to parse JSON message"); E e];;
      emit (ws_close ws);;
      mret None);
  match parsed with
  | None => mret tt
  | Some json =>
      w ← get;
      let bound := peer_prop w !! ws in
      if_logLevel 2 Log
        [V (JStr "in");
         V (peer_label (ctx ← bound ≫= (heap w !!.); peer_id ctx));
         V json];;
      peer ← match bound with
             | Some peer => mret peer
             | None =>
                 let peer := length (heap w) in
                 modify (set_heap (λ h, h ++ [{| peer_id := None; socket := ws |}]));;
                 emit (new_PeerContext ws peer);;
                 modify (set_peer_prop <[ws := peer]>);;
                 mret peer
             end;
      try_catch (tracker_processMessage json peer)
        (λ e,
          (if instanceof_TrackerError e
           then if_logLevel 1 Log
                  [V (JStr "failed to process message from the peer:"); E e]
           else raise e);;
          emit (ws_close ws))
  end.

Definition drain (ws : conn) (bufferedAmount : Z) : M unit :=
  if_logLevel 1 Info [V (JStr "ws backpressure"); V (JNum bufferedAmount)].

Definition close (ws : conn) (code : Z) (message : list Byte.byte) : M unit :=
  modify (set_this (add_count (-1)));;
  w ← get;
  match peer_prop w !! ws with
  | Some peer =>
      modify (set_peer_prop (delete ws));;
      tracker_disconnectPeer peer
  | None => mret tt
  end;;
  if_logLevel 1 Info [V (JStr "ws closed with code"); V (JNum code)].

Definition handle (ev : event) : M unit :=
  match ev with
  | Open ws url => open ws url
  | Message ws msg isBinary => message ws msg isBinary
  | Drain ws buffered => drain ws buffered
  | Close ws code msg => close ws code msg
  end.

(** *** The event loop: handlers run to completion, one event at a time *)

Record handled : Type := {
  cause : event;
  effects : list effect;
  raised : option exn
}.

Definition deliver (ev : event) (w : world T) : world T * handled :=
  match handle ev w with
  | (r, w', out) =>
      (w', {| cause := ev; effects := out;
              raised := match r with Return _ => None | Raise e => Some e end |})
  end.

Fixpoint deliver_all (evs : list event) (w : world T) : world T * list handled :=
  match evs with
  | [] => (w, [])
  | ev :: evs' =>
      let (w1, h) := deliver ev w in
      let (w2, hs) := deliver_all evs' w1 in
      (w2, h :: hs)
  end.

(** *** Construction (lines 36-60) and [run] (lines 129-147) *)

Definition constructor (settings : jsval) : UWebSocketsTracker :=
  let settings := merge_settings settings in
  {| app_ := if is_undefined (js_get "key_file_name" (js_get "server" settings))
             then App else SSLApp;
     logLevel := js_get "logLevel" (js_get "websockets" settings);
     webSocketsCount := 0;
     settings := settings |}.

Definition initial_world (registry : T) (settings : jsval) : world T :=
  {| this := constructor settings; tracker := registry;
     peer_prop := ∅; heap := [] |}.

(** The template literal of the rejection (line 142): the host is
    converted first, then the port. *)
Definition failure_message (g : UWebSocketsTracker) : to_string :=
  text_then (js_to_string (js_get "host" (js_get "server" (settings g))))
    (λ host,
      text_then (js_to_string (js_get "port" (js_get "server" (settings g))))
        (λ port, Text ("failed to listen to " +:+ host +:+ ":" +:+ port))).

(** The callback handed to [listen]: the promise after an invocation. A
    truthy token resolves it. Otherwise the message is built and the promise
    rejected with it; where building the message throws, the exception
    leaves the callback before [reject] is reached and the promise is as it
    was. [None]: the promise is pending and would be rejected with a message
    outside the model. *)
Definition listen_callback (g : UWebSocketsTracker) (token : jsval)
    (p : promise) : option promise :=
  if truthy token then Some (resolve p)
  else match failure_message g with
       | Text message => Some (reject (OtherError "Error" message) p)
       | ThrowsTypeError => Some p
       | BeyondModel => match p with Pending => None | _ => Some p end
       end.

(** [run]: the promise after the transport has invoked the callback with
    each of [tokens] in turn. *)
Definition run (g : UWebSocketsTracker) (tokens : list jsval) : option promise :=
  fold_left (λ p token,
               match p with
               | Some p => listen_callback g token p
               | None => None
               end) tokens (Some Pending).

(** *** Reading traces *)

Definition created (c : conn) (out : list effect) : list ref :=
  omap (λ e, match e with
             | new_PeerContext ws p => if decide (ws = c) then Some p else None
             | _ => None
             end) out.

Definition processMessage_calls (out : list effect) : list (jsval * ref) :=
  omap (λ e, match e with
             | call_processMessage json p => Some (json, p)
             | _ => None
             end) out.

Definition disconnectPeer_calls (out : list effect) : list ref :=
  omap (λ e, match e with call_disconnectPeer p => Some p | _ => None end) out.

Definition closed (out : list effect) : list conn :=
  omap (λ e, match e with ws_close ws => Some ws | _ => None end) out.

Definition is_console (e : effect) : bool :=
  match e with console _ _ => true | _ => false end.

(** The effects other than console output. *)
Definition quiet (out : list effect) : list effect :=
  filter (λ e, is_console e = false) out.

(** Console output and writes to a connection: effects that create no
    identity, close nothing and do not call the registry. *)
Definition harmless (e : effect) : bool :=
  match e with console _ _ | ws_send _ _ _ _ => true | _ => false end.

Definition all_effects (tr : list handled) : list effect :=
  flat_map effects tr.

(** The effects of the handlers that ran for events of connection [c]. *)
Definition effects_on (c : conn) (tr : list handled) : list effect :=
  flat_map (λ h, if decide (event_ws (cause h) = c) then effects h else []) tr.

Definition is_open (ev : event) : bool :=
  match ev with Open _ _ => true | _ => false end.

Definition is_close (ev : event) : bool :=
  match ev with Close _ _ _ => true | _ => false end.

Definition is_message (ev : event) : bool :=
  match ev with Message _ _ _ => true | _ => false end.

Definition opens (evs : list event) : Z :=
  Z.of_nat (length (filter (λ ev, is_open ev = true) evs)).

Definition closes (evs : list event) : Z :=
  Z.of_nat (length (filter (λ ev, is_close ev = true) evs)).

Definition on (c : conn) (p : event → bool) (ev : event) : bool :=
  bool_decide (event_ws ev = c) && p ev.

(** The transport's discipline: a connection handle is opened once, it
    receives message, drain and close events only while open, and its
    close event ends it. [live] is the set of open connections. *)
Fixpoint transport_ok (live : gset conn) (evs : list event) : bool :=
  match evs with
  | [] => true
  | Open ws _ :: evs' =>
      negb (bool_decide (ws ∈ live)) && transport_ok ({[ws]} ∪ live) evs'
  | Close ws _ _ :: evs' =>
      bool_decide (ws ∈ live) && transport_ok (live ∖ {[ws]}) evs'
  | (Message ws _ _ | Drain ws _) :: evs' =>
      bool_decide (ws ∈ live) && transport_ok live evs'
  end.

(** No message of [c] is delivered once [c] has had its close event. *)
Fixpoint no_message_after_close (c : conn) (evs : list event) : bool :=
  match evs with
  | [] => true
  | ev :: evs' =>
      if on c is_close ev then forallb (λ e, negb (on c is_message e)) evs'
      else no_message_after_close c evs'
  end.

Definition decodes (ev : event) : bool :=
  match ev with
  | Message _ msg _ =>
      match JSON_parse (decoder_end msg) with inl _ => true | inr _ => false end
  | _ => false
  end.

(** The identity the message handler dispatches with, and the world once
    it is bound (lines 86-98). *)
Definition bind_peer (ws : conn) (w : world T) : ref * world T :=
  match peer_prop w !! ws with
  | Some peer => (peer, w)
  | None =>
      (length (heap w),
       set_peer_prop <[ws := length (heap w)]>
         (set_heap (λ h, h ++ [{| peer_id := None; socket := ws |}]) w))
  end.

(** *** Verbosity *)

(** The gateway configured at another log level: the field read by the
    handlers, and the setting it was taken from. *)
Definition configured (l : jsval) (g : UWebSocketsTracker) : UWebSocketsTracker :=
  {| app_ := app_ g; logLevel := l; webSocketsCount := webSocketsCount g;
     settings :=
       JObj [("server", js_get "server" (settings g));
             ("websockets",
               JObj (prop_set "logLevel" l
                       (own_props (js_get "websockets" (settings g)))))] |}.

Definition at_level (l : jsval) (w : world T) : world T := set_this (configured l) w.

(** The world with the verbosity configuration erased. *)
Definition hush (w : world T) : world T :=
  set_this (λ g, {| app_ := app_ g; logLevel := JUndefined;
                    webSocketsCount := webSocketsCount g;
                    settings := JUndefined |}) w.

(** Two outcomes of a computation that differ in console output and
    verbosity configuration only. *)
Definition sim {A} (x y : result A * world T * list effect) : Prop :=
  x.1.1 = y.1.1 ∧ hush x.1.2 = hush y.1.2 ∧ quiet x.2 = quiet y.2.

Definition noninterfering {A} (m : M A) : Prop :=
  ∀ w1 w2, hush w1 = hush w2 → sim (m w1) (m w2).

(** What an observer other than the console sees of each event. *)
Record observation : Type := {
  seen_event : event;
  seen_effects : list effect;
  seen_raised : option exn;
  seen_count : Z;
  seen_peer_prop : gmap conn ref;
  seen_heap : list PeerContext;
  seen_tracker : T
}.

Fixpoint observe (evs : list event) (w : world T) : list observation :=
  match evs with
  | [] => []
  | ev :: evs' =>
      let (w1, h) := deliver ev w in
      {| seen_event := ev; seen_effects := quiet (effects h);
         seen_raised := raised h;
         seen_count := webSocketsCount (this w1);
         seen_peer_prop := peer_prop w1; seen_heap := heap w1;
         seen_tracker := tracker w1 |} :: observe evs' w1
  end.

(** The console lines of a handler at the current level. *)
Definition logs (n : Z) (method : console_method) (args : list logged)
    (w : world T) : list effect :=
  if strict_eq_num (logLevel (this w)) n then [console method args] else [].

(** What the message handler does once [processMessage] has ended with
    [failure] (lines 102-110), when it does not rethrow. *)
Definition after_failure (ws : conn) (failure : option exn) (w : world T)
    : list effect :=
  match failure with
  | Some e =>
      if instanceof_TrackerError e
      then logs 1 Log [V (JStr "failed to process message from the peer:"); E e] w
           ++ [ws_close ws]
      else []
  | None => []
  end.

(** The identities [processMessage] was called with by the handler that ran
    for [h], when its event was an event of [c]. *)
Definition calls_of (c : conn) (h : handled) : list ref :=
  (processMessage_calls
     (if decide (event_ws (cause h) = c) then effects h else [])).*2.

(** How the binding of [c], the identities made for [c] and the dispatches
    for [c] relate across events that do not close [c]. *)
Definition step_invariant (c : conn) (decoded : bool) (before after : option ref)
    (made calls : list ref) : Prop :=
  match before with
  | Some p => after = Some p ∧ made = [] ∧ ∀ q, q ∈ calls → q = p
  | None =>
      if decoded
      then ∃ p, after = Some p ∧ made = [p] ∧ ∀ q, q ∈ calls → q = p
      else after = None ∧ made = [] ∧ calls = []
  end.

Definition calls_on (c : conn) (tr : list handled) : list ref :=
  (processMessage_calls (effects_on c tr)).*2.

Definition count (w : world T) : Z := webSocketsCount (this w).

(** *** More of the class and of its traces *)

(** The [stats] getter (lines 30-34). *)
Definition stats (g : UWebSocketsTracker) : jsval :=
  JObj [("webSocketsCount", JNum (webSocketsCount g))].

(** What a message event decodes to, when it decodes. *)
Definition decoded (ev : event) : option jsval :=
  match ev with
  | Message _ msg _ =>
      match JSON_parse (decoder_end msg) with
      | inl json => Some json
      | inr _ => None
      end
  | _ => None
  end.

(** The connection each identity object writes to, by address. *)
Definition sockets (w : world T) : list conn := map socket (heap w).

(** The identities created, with the connection each was created for. *)
Definition news (out : list effect) : list (conn * ref) :=
  omap (λ e, match e with
             | new_PeerContext ws p => Some (ws, p)
             | _ => None
             end) out.

(** A write through a send capability: to one of the connections [S], as
    text and uncompressed. *)
Definition send_ok (S : list conn) (e : effect) : Prop :=
  match e with
  | ws_send c _ isBinary compress =>
      c ∈ S ∧ isBinary = false ∧ compress = false
  | _ => True
  end.

(** Every bound identity is an object of the heap, and its send capability
    writes to the connection it is bound to. *)
Definition bound_well (w : world T) : Prop :=
  ∀ ws p, peer_prop w !! ws = Some p → sockets w !! p = Some ws.

Definition bound_in (w : world T) (p : ref) : Prop :=
  ∃ ws, peer_prop w !! ws = Some p.

(** The two kinds of console lines: the traces of messages ("in", "out"),
    and the lines about connection events and errors. *)
Definition is_trace (args : list logged) : bool :=
  match args with
  | V (JStr s) :: _ => String.eqb s "in" || String.eqb s "out"
  | _ => false
  end.

Definition line_level (args : list logged) : Z :=
  if is_trace args then 2 else 1.

(** An effect the gateway may have at log level [l]. *)
Definition allowed (l : jsval) (e : effect) : bool :=
  match e with
  | console _ args => strict_eq_num l (line_level args)
  | _ => true
  end.

(** A computation started in [w] relates [w], the world it ends in and
    what it emits. *)
Definition sat_at {A} (R : world T → world T → list effect → Prop)
    (m : M A) (w : world T) : Prop :=
  R w (m w).1.2 (m w).2.

(** The log level stays, and only lines of that level are written. *)
Definition R_console (w w1 : world T) (out : list effect) : Prop :=
  logLevel (this w1) = logLevel (this w)
  ∧ forallb (allowed (logLevel (this w))) out = true.

(** The identity objects stay where they are and keep their connection;
    the new ones take the next addresses; writes go to connections of
    identity objects. *)
Definition R_identities (w w1 : world T) (out : list effect) : Prop :=
  sockets w1 = sockets w ++ (news out).*1
  ∧ (news out).*2 = seq (length (heap w)) (length (news out))
  ∧ Forall (send_ok (sockets w1)) out.

(** The bindings stay well formed; an identity that was disconnected is
    bound no more, and was bound before or is new; none is disconnected
    twice. *)
Definition R_once (w w1 : world T) (out : list effect) : Prop :=
  bound_well w →
  bound_well w1
  ∧ (length (heap w) ≤ length (heap w1))%nat
  ∧ (∀ p, bound_in w1 p →
          (bound_in w p ∧ p ∉ disconnectPeer_calls out)
          ∨ (length (heap w) ≤ p)%nat)
  ∧ NoDup (disconnectPeer_calls out)
  ∧ (∀ p, p ∈ disconnectPeer_calls out →
          ¬ bound_in w1 p ∧ (p < length (heap w1))%nat
          ∧ (bound_in w p ∨ (length (heap w) ≤ p)%nat)).

(** Connection [c] is left alone. *)
Definition R_isolated (c : conn) (w w1 : world T) (out : list effect) : Prop :=
  peer_prop w1 !! c = peer_prop w !! c
  ∧ created c out = [] ∧ c ∉ closed out.

(** The configuration of the gateway stays. *)
Definition R_configured (w w1 : world T) (out : list effect) : Prop :=
  app_ (this w1) = app_ (this w)
  ∧ logLevel (this w1) = logLevel (this w)
  ∧ settings (this w1) = settings (this w).

(** The connections open after [evs], from those open before. *)
Fixpoint live_after (live : gset conn) (evs : list event) : gset conn :=
  match evs with
  | [] => live
  | Open ws _ :: evs' => live_after ({[ws]} ∪ live) evs'
  | Close ws _ _ :: evs' => live_after (live ∖ {[ws]}) evs'
  | _ :: evs' => live_after live evs'
  end.

(** *** The route (lines 64-69) *)

(** The pattern and the options [buildApplication] registers the handlers
    with. *)
Record behavior : Type := {
  pattern : jsval;
  compression : jsval;
  maxPayloadLength : jsval;
  idleTimeout : jsval
}.

Definition buildApplication (g : UWebSocketsTracker) : behavior :=
  let websockets := js_get "websockets" (settings g) in
  {| pattern := js_get "path" websockets;
     compression := js_get "compression" websockets;
     maxPayloadLength := js_get "maxPayloadLength" websockets;
     idleTimeout := js_get "idleTimeout" websockets |}.

(** * Properties *)

(** ** The gateway *)

(** *** Laws of the handler monad and of the helpers *)

Ltac run_M :=
  unfold mbind, M_bind, mret, M_ret, get, modify, emit, raise, try_catch;
  simpl.

Lemma if_logLevel_spec n m args w :
  if_logLevel n m args w = (Return tt, w, logs n m args w).
Proof.
  unfold if_logLevel, logs. run_M.
  destruct (strict_eq_num _ _); reflexivity.
Qed.

Lemma logs_harmless n m args w : forallb harmless (logs n m args w) = true.
Proof. unfold logs. destruct (strict_eq_num _ _); reflexivity. Qed.

Lemma logs_quiet n m args w : quiet (logs n m args w) = [].
Proof. unfold logs. destruct (strict_eq_num _ _); reflexivity. Qed.

Lemma sendMessage_spec peer json w :
  ∃ out, sendMessage peer json w = (Return tt, w, out)
         ∧ forallb harmless out = true.
Proof.
  unfold sendMessage. run_M. destruct (heap w !! peer) as [ctx|]; simpl.
  - rewrite if_logLevel_spec. eexists; split; [reflexivity|].
    simpl. apply logs_harmless.
  - eexists; split; reflexivity.
Qed.

Lemma set_heap_id w : set_heap (λ _, heap w) w = w.
Proof. destruct w; reflexivity. Qed.

Lemma perform_all_spec l w :
  ∃ h out, perform_all l w = (Return tt, set_heap (λ _, h) w, out)
           ∧ length h = length (heap w) ∧ forallb harmless out = true.
Proof.
  revert w. induction l as [|a l IH]; intros w.
  - exists (heap w), []. rewrite set_heap_id. repeat split.
  - simpl. unfold mbind, M_bind. destruct a as [p i|p j]; simpl.
    + unfold modify.
      destruct (IH (set_heap
                 (alter (λ ctx, {| peer_id := i; socket := socket ctx |}) p) w))
        as (h & out & E1 & E2 & E3).
      rewrite E1. exists h, out. repeat split; [|assumption].
      rewrite E2. simpl. apply length_alter.
    + destruct (sendMessage_spec p j w) as (o1 & E1 & F1). rewrite E1.
      destruct (IH w) as (h & out & E2 & E3 & E4). rewrite E2.
      exists h, (o1 ++ out). repeat split; [assumption|].
      rewrite forallb_app, F1, E4. reflexivity.
Qed.

(** A call into the registry returns or raises as the registry says, and
    besides the call itself has harmless effects only. *)
Lemma call_spec e op w :
  let r := op (tracker w) (heap w) in
  ∃ h out,
    call e op w =
      (match throws r with Some x => Raise x | None => Return tt end,
       set_heap (λ _, h) (set_tracker (next r) w), e :: out)
    ∧ length h = length (heap w) ∧ forallb harmless out = true.
Proof.
  intros r. unfold call. run_M. fold r.
  destruct (perform_all_spec (actions r) (set_tracker (next r) w))
    as (h & out & E1 & E2 & E3).
  rewrite E1. exists h, out. repeat split; [|assumption..].
  destruct (throws r); simpl; rewrite ?app_nil_r; reflexivity.
Qed.

Lemma open_spec ws url w :
  open ws url w =
    (Return tt, set_this (add_count 1) w,
     logs 1 Info [V (JStr "ws connected via URL"); V (JStr url)] w).
Proof.
  unfold open. run_M. rewrite if_logLevel_spec. reflexivity.
Qed.

Lemma drain_spec ws n w :
  drain ws n w =
    (Return tt, w, logs 1 Info [V (JStr "ws backpressure"); V (JNum n)] w).
Proof. apply if_logLevel_spec. Qed.

(** The message handler on a payload that does not decode. *)
Lemma message_undecodable ws msg b w e :
  JSON_parse (decoder_end msg) = inr e →
  message ws msg b w =
    (Return tt, w,
     logs 1 Info [V (JStr "ws message of size");
                  V (JNum (Z.of_nat (length msg)))] w
     ++ logs 1 Warn [V (JStr "failed to parse JSON message"); E e] w
     ++ [ws_close ws]).
Proof.
  intros H. unfold message. run_M. rewrite !if_logLevel_spec, H. simpl.
  rewrite if_logLevel_spec. simpl. rewrite app_nil_r. reflexivity.
Qed.

Lemma logs_this n m args w1 w2 :
  this w1 = this w2 → logs n m args w1 = logs n m args w2.
Proof. unfold logs. intros ->. reflexivity. Qed.

(** The message handler on a payload that decodes to [json]. *)
Lemma message_decoded ws msg b w json :
  JSON_parse (decoder_end msg) = inl json →
  let peer := (bind_peer ws w).1 in
  let w0 := (bind_peer ws w).2 in
  let r := processMessage (tracker w0) (heap w0) json peer in
  ∃ h pre out,
    message ws msg b w =
      (match throws r with
       | Some e => if instanceof_TrackerError e then Return tt else Raise e
       | None => Return tt
       end,
       set_heap (λ _, h) (set_tracker (next r) w0),
       pre
       ++ match peer_prop w !! ws with
          | Some _ => []
          | None => [new_PeerContext ws peer]
          end
       ++ call_processMessage json peer :: out
       ++ after_failure ws (throws r) w)
    ∧ length h = length (heap w0)
    ∧ forallb harmless pre = true ∧ forallb harmless out = true.
Proof.
  intros H peer w0 r.
  set (pre := logs 1 Info [V (JStr "ws message of size");
                           V (JNum (Z.of_nat (length msg)))] w
              ++ logs 2 Log
                   [V (JStr "in");
                    V (peer_label (ctx ← peer_prop w !! ws ≫= (heap w !!.);
                                   peer_id ctx));
                    V json] w).
  assert (Hpre : forallb harmless pre = true).
  { unfold pre. rewrite forallb_app, !logs_harmless. reflexivity. }
  unfold message. run_M.
  rewrite !if_logLevel_spec, H. simpl. rewrite if_logLevel_spec.
  unfold tracker_processMessage.
  subst peer w0 r. unfold bind_peer.
  destruct (peer_prop w !! ws) as [p|] eqn:Hb; simpl;
    match goal with |- context [call ?e ?op ?w'] =>
      destruct (call_spec e op w') as (h & out & E1 & E2 & E3) end;
    simpl in E1; rewrite E1; clear E1;
    exists h, pre, out;
    (split; [|repeat split; assumption]);
    destruct (throws _) as [e|]; simpl;
    try (destruct (instanceof_TrackerError e) eqn:Hi; simpl);
    rewrite ?if_logLevel_spec; simpl; unfold pre, after_failure; simpl;
    rewrite ?Hi, ?app_nil_r, <- ?app_assoc; simpl;
    repeat f_equal; apply logs_this; reflexivity.
Qed.

(** The close handler. *)
Lemma close_spec ws code msg w :
  let w0 := set_this (add_count (-1)) w in
  let bye := logs 1 Info [V (JStr "ws closed with code"); V (JNum code)] w in
  match peer_prop w !! ws with
  | None => close ws code msg w = (Return tt, w0, bye)
  | Some peer =>
      let w1 := set_peer_prop (delete ws) w0 in
      let r := disconnectPeer (tracker w1) (heap w1) peer in
      ∃ h out,
        close ws code msg w =
          (match throws r with Some e => Raise e | None => Return tt end,
           set_heap (λ _, h) (set_tracker (next r) w1),
           call_disconnectPeer peer :: out
           ++ match throws r with Some _ => [] | None => bye end)
        ∧ length h = length (heap w) ∧ forallb harmless out = true
  end.
Proof.
  intros w0 bye. unfold close. run_M.
  destruct (peer_prop w !! ws) as [p|] eqn:Hb; simpl.
  - unfold tracker_disconnectPeer.
    match goal with |- context [call ?e ?op ?w'] =>
      destruct (call_spec e op w') as (h & out & E1 & E2 & E3) end.
    simpl in E1. rewrite E1. clear E1. exists h, out.
    split; [|split; assumption].
    destruct (throws _) as [e|]; simpl; rewrite ?if_logLevel_spec; simpl;
      rewrite ?app_nil_r; repeat f_equal.
  - rewrite if_logLevel_spec. reflexivity.
Qed.

(** *** Projections of effect lists *)

Lemma created_app c o1 o2 : created c (o1 ++ o2) = created c o1 ++ created c o2.
Proof. apply omap_app. Qed.

Lemma processMessage_calls_app o1 o2 :
  processMessage_calls (o1 ++ o2) = processMessage_calls o1 ++ processMessage_calls o2.
Proof. apply omap_app. Qed.

Lemma disconnectPeer_calls_app o1 o2 :
  disconnectPeer_calls (o1 ++ o2) = disconnectPeer_calls o1 ++ disconnectPeer_calls o2.
Proof. apply omap_app. Qed.

Lemma closed_app o1 o2 : closed (o1 ++ o2) = closed o1 ++ closed o2.
Proof. apply omap_app. Qed.

Lemma harmless_projections out :
  forallb harmless out = true →
  (∀ c, created c out = []) ∧ processMessage_calls out = []
  ∧ disconnectPeer_calls out = [] ∧ closed out = [].
Proof.
  induction out as [|e out IH]; simpl; [intros _; repeat split|].
  intros [He Hout]%andb_prop. destruct (IH Hout) as (I1 & I2 & I3 & I4).
  destruct e; try discriminate He; repeat split; try intros c;
    unfold created, processMessage_calls, disconnectPeer_calls, closed in *;
    simpl; auto.
Qed.

Lemma created_harmless c out : forallb harmless out = true → created c out = [].
Proof. intros H. apply harmless_projections, H. Qed.

Lemma processMessage_calls_harmless out :
  forallb harmless out = true → processMessage_calls out = [].
Proof. intros H. apply harmless_projections, H. Qed.

Lemma disconnectPeer_calls_harmless out :
  forallb harmless out = true → disconnectPeer_calls out = [].
Proof. intros H. apply harmless_projections, H. Qed.

Lemma closed_harmless out : forallb harmless out = true → closed out = [].
Proof. intros H. apply harmless_projections, H. Qed.

(** *** What each handler does to bindings, identities and the registry *)

Lemma after_failure_projections ws t w :
  (∀ c, created c (after_failure ws t w) = [])
  ∧ processMessage_calls (after_failure ws t w) = []
  ∧ disconnectPeer_calls (after_failure ws t w) = [].
Proof.
  unfold after_failure.
  destruct t as [e|]; [destruct (instanceof_TrackerError e)|];
    repeat split; try intros c;
    rewrite ?created_app, ?processMessage_calls_app, ?disconnectPeer_calls_app;
    rewrite ?created_harmless, ?processMessage_calls_harmless,
      ?disconnectPeer_calls_harmless by apply logs_harmless;
    reflexivity.
Qed.

Lemma message_effects ws msg b w r w1 out :
  message ws msg b w = (r, w1, out) →
  this w1 = this w ∧ disconnectPeer_calls out = []
  ∧ match JSON_parse (decoder_end msg), peer_prop w !! ws with
    | inr _, _ =>
        r = Return tt ∧ w1 = w ∧ (∀ c, created c out = [])
        ∧ processMessage_calls out = [] ∧ closed out = [ws]
    | inl json, Some p =>
        peer_prop w1 = peer_prop w ∧ (∀ c, created c out = [])
        ∧ processMessage_calls out = [(json, p)]
    | inl json, None =>
        let p := length (heap w) in
        peer_prop w1 = <[ws := p]> (peer_prop w)
        ∧ (∀ c, created c out = if decide (ws = c) then [p] else [])
        ∧ processMessage_calls out = [(json, p)]
    end.
Proof.
  intros Hm. destruct (JSON_parse (decoder_end msg)) as [json|e] eqn:Hp.
  - destruct (message_decoded ws msg b w json Hp)
      as (h & pre & o & E & Hh & Hpre & Ho).
    rewrite Hm in E. injection E as -> -> ->.
    destruct (after_failure_projections ws
      (throws (processMessage (tracker (bind_peer ws w).2)
                 (heap (bind_peer ws w).2) json (bind_peer ws w).1)) w)
      as (T1 & T2 & T3).
    change (call_processMessage ?j ?p :: ?l)
      with ([call_processMessage j p] ++ l).
    rewrite !disconnectPeer_calls_app, !processMessage_calls_app.
    rewrite T2, T3.
    rewrite (disconnectPeer_calls_harmless pre),
      (processMessage_calls_harmless pre),
      (disconnectPeer_calls_harmless o),
      (processMessage_calls_harmless o) by assumption.
    assert (Hc : ∀ c l, created c (pre ++ l ++ [call_processMessage json (bind_peer ws w).1]
                   ++ o ++ after_failure ws
      (throws (processMessage (tracker (bind_peer ws w).2)
                 (heap (bind_peer ws w).2) json (bind_peer ws w).1)) w)
                 = created c l).
    { intros c l. rewrite !created_app, T1.
      rewrite (created_harmless c pre), (created_harmless c o) by assumption.
      simpl. rewrite app_nil_r. reflexivity. }
    unfold bind_peer in *.
    destruct (peer_prop w !! ws) as [p|] eqn:Hb; simpl in *.
    + repeat split. intros c. apply (Hc c []).
    + repeat split. intros c.
      transitivity (created c [new_PeerContext ws (length (heap w))]);
        [exact (Hc c [_])|].
      unfold created. simpl. destruct (decide (ws = c)); reflexivity.
  - rewrite (message_undecodable ws msg b w e Hp) in Hm.
    injection Hm as <- <- <-.
    assert (H1 := logs_harmless 1 Info
      [V (JStr "ws message of size"); V (JNum (Z.of_nat (length msg)))] w).
    assert (H2 := logs_harmless 1 Warn
      [V (JStr "failed to parse JSON message"); E e] w).
    rewrite !disconnectPeer_calls_app, !processMessage_calls_app, !closed_app.
    rewrite !disconnectPeer_calls_harmless, !processMessage_calls_harmless,
      !closed_harmless by assumption.
    assert (∀ c, created c (logs 1 Info
      [V (JStr "ws message of size"); V (JNum (Z.of_nat (length msg)))] w ++
              logs 1 Warn [V (JStr "failed to parse JSON message"); E e] w ++ [ws_close ws]) = []).
    { intros c. rewrite !created_app.
      rewrite !created_harmless by assumption. reflexivity. }
    destruct (peer_prop w !! ws); repeat split; assumption.
Qed.

Lemma close_effects ws code msg w r w1 out :
  close ws code msg w = (r, w1, out) →
  this w1 = add_count (-1) (this w)
  ∧ peer_prop w1 = delete ws (peer_prop w)
  ∧ (∀ c, created c out = []) ∧ processMessage_calls out = []
  ∧ disconnectPeer_calls out =
      match peer_prop w !! ws with Some p => [p] | None => [] end.
Proof.
  intros Hm. pose proof (close_spec ws code msg w) as S. simpl in S.
  assert (Hbye := logs_harmless 1 Info
    [V (JStr "ws closed with code"); V (JNum code)] w).
  destruct (peer_prop w !! ws) as [p|] eqn:Hb.
  - destruct S as (h & o & E & Hh & Ho). rewrite Hm in E.
    injection E as -> -> ->.
    change (call_disconnectPeer p :: ?l) with ([call_disconnectPeer p] ++ l).
    assert (Ht : forallb harmless
      match throws (disconnectPeer (tracker w) (heap w) p) with
      | Some _ => []
      | None => logs 1 Info [V (JStr "ws closed with code"); V (JNum code)] w
      end = true) by (destruct (throws _); [reflexivity|assumption]).
    rewrite !processMessage_calls_app, !disconnectPeer_calls_app.
    rewrite (processMessage_calls_harmless o), (disconnectPeer_calls_harmless o),
      (processMessage_calls_harmless _ Ht), (disconnectPeer_calls_harmless _ Ht)
      by assumption.
    repeat split. intros c. rewrite !created_app.
    rewrite (created_harmless c o), (created_harmless c _ Ht) by assumption.
    reflexivity.
  - rewrite Hm in S. injection S as -> -> ->.
    rewrite processMessage_calls_harmless, disconnectPeer_calls_harmless
      by assumption.
    repeat split.
    + simpl. symmetry. apply delete_id. assumption.
    + intros c. apply created_harmless. assumption.
Qed.

Lemma open_effects ws url w r w1 out :
  open ws url w = (r, w1, out) →
  r = Return tt ∧ w1 = set_this (add_count 1) w ∧ forallb harmless out = true.
Proof.
  rewrite open_spec. intros E. injection E as <- <- <-.
  repeat split. apply logs_harmless.
Qed.

Lemma drain_effects ws n w r w1 out :
  drain ws n w = (r, w1, out) →
  r = Return tt ∧ w1 = w ∧ forallb harmless out = true.
Proof.
  rewrite drain_spec. intros E. injection E as <- <- <-.
  repeat split. apply logs_harmless.
Qed.

(** *** One event, seen from a connection [c] *)

Lemma deliver_cause ev w w1 h : deliver ev w = (w1, h) → cause h = ev.
Proof.
  unfold deliver. destruct (handle ev w) as [[r w'] out].
  intros E. injection E as <- <-. reflexivity.
Qed.

Lemma step_inv c ev w w1 h :
  deliver ev w = (w1, h) →
  on c is_close ev = false →
  step_invariant c (on c decodes ev) (peer_prop w !! c) (peer_prop w1 !! c)
    (created c (effects h)) (calls_of c h).
Proof.
  intros Hd Hnc. unfold calls_of. rewrite (deliver_cause _ _ _ _ Hd).
  unfold deliver in Hd. destruct (handle ev w) as [[r w'] out] eqn:Hh.
  injection Hd as <- <-. simpl. unfold step_invariant, on in *.
  destruct ev as [ws url|ws msg b|ws n|ws code msg]; simpl in *.
  - apply open_effects in Hh as (_ & -> & Hout).
    rewrite created_harmless by assumption.
    rewrite andb_false_r.
    assert (processMessage_calls (if decide (ws = c) then out else []) = []) as ->
      by (destruct (decide _); [apply processMessage_calls_harmless|]; done).
    simpl. destruct (peer_prop w !! c); repeat split; set_solver.
  - apply message_effects in Hh as (_ & _ & Hm).
    destruct (JSON_parse (decoder_end msg)) as [json|e].
    + rewrite andb_true_r.
      destruct (decide (ws = c)) as [->|Hne].
      * rewrite bool_decide_eq_true_2 by reflexivity.
        destruct (peer_prop w !! c) as [p|] eqn:Hb.
        -- destruct Hm as (-> & Hc & ->). rewrite Hc, Hb.
           repeat split. simpl. intros q Hq%list_elem_of_singleton. exact Hq.
        -- destruct Hm as (-> & Hc & ->). rewrite Hc.
           rewrite decide_True by reflexivity.
           exists (length (heap w)). rewrite lookup_insert_eq.
           repeat split. simpl. intros q Hq%list_elem_of_singleton. exact Hq.
      * rewrite bool_decide_eq_false_2 by assumption.
        assert (created c out = [] ∧ peer_prop w' !! c = peer_prop w !! c)
          as [-> ->].
        { destruct (peer_prop w !! ws).
          - destruct Hm as (-> & Hc & _). split; [apply Hc|reflexivity].
          - destruct Hm as (-> & Hc & _). rewrite Hc.
            rewrite decide_False by assumption.
            split; [reflexivity|apply lookup_insert_ne; assumption]. }
        simpl. destruct (peer_prop w !! c); repeat split; set_solver.
    + rewrite andb_false_r.
      assert (Hm' : w' = w ∧ (∀ c, created c out = [])
                    ∧ processMessage_calls out = []).
      { destruct (peer_prop w !! ws); destruct Hm as (_ & -> & Hc & Hp & _);
          repeat split; assumption. }
      destruct Hm' as (-> & Hc & Hp). rewrite Hc.
      assert (processMessage_calls (if decide (ws = c) then out else []) = [])
        as -> by (destruct (decide _); done).
      simpl. destruct (peer_prop w !! c); repeat split; set_solver.
  - apply drain_effects in Hh as (_ & -> & Hout).
    rewrite created_harmless by assumption.
    rewrite andb_false_r.
    assert (processMessage_calls (if decide (ws = c) then out else []) = []) as ->
      by (destruct (decide _); [apply processMessage_calls_harmless|]; done).
    simpl. destruct (peer_prop w !! c); repeat split; set_solver.
  - apply close_effects in Hh as (_ & -> & Hc & Hp & _).
    rewrite andb_true_r in Hnc. apply bool_decide_eq_false in Hnc.
    rewrite Hc, andb_false_r, lookup_delete_ne by assumption.
    rewrite decide_False by assumption.
    simpl. destruct (peer_prop w !! c); repeat split; set_solver.
Qed.

Lemma quiet_step c ev w w1 h :
  deliver ev w = (w1, h) →
  on c is_message ev = false →
  created c (effects h) = [] ∧ calls_of c h = [].
Proof.
  intros Hd Hnm. unfold calls_of. rewrite (deliver_cause _ _ _ _ Hd).
  unfold deliver in Hd. destruct (handle ev w) as [[r w'] out] eqn:Hh.
  injection Hd as <- <-. simpl. unfold on in Hnm.
  destruct ev as [ws url|ws msg b|ws n|ws code msg]; simpl in *.
  - apply open_effects in Hh as (_ & _ & Hout).
    rewrite created_harmless by assumption. split; [reflexivity|].
    destruct (decide _); [rewrite processMessage_calls_harmless|]; done.
  - rewrite andb_true_r in Hnm. apply bool_decide_eq_false in Hnm.
    rewrite decide_False by assumption. split; [|reflexivity].
    apply message_effects in Hh as (_ & _ & Hm).
    destruct (JSON_parse _), (peer_prop w !! ws).
    + destruct Hm as (_ & Hc & _). apply Hc.
    + destruct Hm as (_ & Hc & _). rewrite Hc. apply decide_False. assumption.
    + destruct Hm as (_ & _ & Hc & _). apply Hc.
    + destruct Hm as (_ & _ & Hc & _). apply Hc.
  - apply drain_effects in Hh as (_ & _ & Hout).
    rewrite created_harmless by assumption. split; [reflexivity|].
    destruct (decide _); [rewrite processMessage_calls_harmless|]; done.
  - apply close_effects in Hh as (_ & _ & Hc & Hp & _).
    rewrite Hc. split; [reflexivity|].
    destruct (decide _); [rewrite Hp|]; reflexivity.
Qed.

(** *** Sequences of events *)

Lemma deliver_all_cons ev evs w w2 tr :
  deliver_all (ev :: evs) w = (w2, tr) →
  ∃ w1 h hs, deliver ev w = (w1, h) ∧ deliver_all evs w1 = (w2, hs)
             ∧ tr = h :: hs.
Proof.
  simpl. destruct (deliver ev w) as [w1 h].
  destruct (deliver_all evs w1) as [w2' hs] eqn:Hr.
  intros E. injection E as <- <-. exists w1, h, hs. repeat split.
  assumption.
Qed.

Lemma calls_on_cons c h hs : calls_on c (h :: hs) = calls_of c h ++ calls_on c hs.
Proof.
  unfold calls_on, calls_of. simpl.
  rewrite processMessage_calls_app, fmap_app. reflexivity.
Qed.

Lemma created_cons c h hs :
  created c (all_effects (h :: hs))
  = created c (effects h) ++ created c (all_effects hs).
Proof. unfold all_effects. simpl. apply created_app. Qed.

Lemma no_messages_nothing c evs w w1 tr :
  deliver_all evs w = (w1, tr) →
  forallb (λ e, negb (on c is_message e)) evs = true →
  created c (all_effects tr) = [] ∧ calls_on c tr = [].
Proof.
  revert w tr. induction evs as [|ev evs IH]; intros w tr.
  - simpl. intros E _. injection E as <- <-. split; reflexivity.
  - intros (w' & h & hs & Hd & Hr & ->)%deliver_all_cons.
    cbn [forallb existsb]. intros [Hev Hevs]%andb_prop.
    apply negb_true_iff in Hev.
    destruct (quiet_step c ev w w' h Hd Hev) as [Q1 Q2].
    destruct (IH _ _ Hr Hevs) as [I1 I2].
    rewrite created_cons, calls_on_cons, Q1, Q2, I1, I2. split; reflexivity.
Qed.

(** While [c] is not closed, its binding is stable once made, an identity
    is made for it at most once, and every dispatch for it carries that
    identity. *)
Lemma lifetime_inv c evs w w1 tr :
  deliver_all evs w = (w1, tr) →
  forallb (λ e, negb (on c is_close e)) evs = true →
  step_invariant c (existsb (on c decodes) evs)
    (peer_prop w !! c) (peer_prop w1 !! c)
    (created c (all_effects tr)) (calls_on c tr).
Proof.
  revert w tr. induction evs as [|ev evs IH]; intros w tr.
  - simpl. intros E _. injection E as <- <-. unfold step_invariant. simpl.
    destruct (peer_prop w !! c); repeat split. intros q Hq. inversion Hq.
  - intros (w' & h & hs & Hd & Hr & ->)%deliver_all_cons.
    cbn [forallb existsb]. intros [Hev Hevs]%andb_prop.
    apply negb_true_iff in Hev.
    pose proof (step_inv c ev w w' h Hd Hev) as S.
    pose proof (IH _ _ Hr Hevs) as I.
    rewrite created_cons, calls_on_cons. unfold step_invariant in *.
    destruct (peer_prop w !! c) as [p|].
    + destruct S as (Sa & -> & Sc). rewrite Sa in I.
      destruct I as (Ia & -> & Ic). repeat split; [assumption|].
      intros q [Hq|Hq]%elem_of_app; auto.
    + destruct (on c decodes ev); simpl.
      * destruct S as (p & Sa & -> & Sc). rewrite Sa in I.
        destruct I as (Ia & -> & Ic). exists p. repeat split; [assumption|].
        intros q [Hq|Hq]%elem_of_app; auto.
      * destruct S as (Sa & -> & ->). rewrite Sa in I. exact I.
Qed.

Lemma one_identity c evs w w1 tr :
  deliver_all evs w = (w1, tr) →
  no_message_after_close c evs = true →
  match peer_prop w !! c with
  | Some p => created c (all_effects tr) = [] ∧ ∀ q, q ∈ calls_on c tr → q = p
  | None =>
      (created c (all_effects tr) = [] ∧ calls_on c tr = [])
      ∨ ∃ p, created c (all_effects tr) = [p] ∧ ∀ q, q ∈ calls_on c tr → q = p
  end.
Proof.
  revert w tr. induction evs as [|ev evs IH]; intros w tr.
  - simpl. intros E _. injection E as <- <-.
    destruct (peer_prop w !! c); [split; [reflexivity|]|left; split; reflexivity].
    intros q Hq. inversion Hq.
  - intros (w' & h & hs & Hd & Hr & ->)%deliver_all_cons.
    cbn [no_message_after_close]. rewrite created_cons, calls_on_cons.
    destruct (on c is_close ev) eqn:Hev.
    + intros Hevs.
      assert (Hnm : on c is_message ev = false).
      { unfold on in *. destruct ev; simpl in *;
          rewrite ?andb_false_r in *; try discriminate; reflexivity. }
      destruct (quiet_step c ev w w' h Hd Hnm) as [-> ->].
      destruct (no_messages_nothing c evs w' w1 hs Hr Hevs) as [-> ->].
      destruct (peer_prop w !! c); [split; [reflexivity|]|left; split; reflexivity].
      intros q Hq. inversion Hq.
    + intros Hevs.
      pose proof (step_inv c ev w w' h Hd Hev) as S.
      pose proof (IH _ _ Hr Hevs) as I. unfold step_invariant in S.
      destruct (peer_prop w !! c) as [p|].
      * destruct S as (Sa & -> & Sc). rewrite Sa in I.
        destruct I as (-> & Ic). split; [reflexivity|].
        intros q [Hq|Hq]%elem_of_app; auto.
      * destruct (on c decodes ev).
        -- destruct S as (p & Sa & -> & Sc). rewrite Sa in I.
           destruct I as (-> & Ic). right. exists p. split; [reflexivity|].
           intros q [Hq|Hq]%elem_of_app; auto.
        -- destruct S as (Sa & -> & ->). rewrite Sa in I. exact I.
Qed.

(** C1. For every connection [c] and every sequence of events in which no
    message of [c] follows the close event of [c], at most one Peer
    Identity is created for [c], however many messages arrive; none is
    created when one is already bound, and then every dispatch for [c]
    carries the bound identity; and every dispatch for [c] carries the
    same identity object, the one created if one was created. *)
Theorem C1_one_identity_per_connection c evs w :
  no_message_after_close c evs = true →
  let tr := (deliver_all evs w).2 in
  (length (created c (all_effects tr)) ≤ 1)%nat
  ∧ (∀ p, peer_prop w !! c = Some p →
          created c (all_effects tr) = [] ∧ ∀ q, q ∈ calls_on c tr → q = p)
  ∧ (∀ p q, p ∈ created c (all_effects tr) ++ calls_on c tr →
            q ∈ calls_on c tr → q = p).
Proof.
  intros H. destruct (deliver_all evs w) as [w1 tr] eqn:Hd. simpl.
  pose proof (one_identity c evs w w1 tr Hd H) as O.
  destruct (peer_prop w !! c) as [p0|].
  - destruct O as (-> & Oc). split; [simpl; lia|]. split.
    + intros p [= <-]. split; [reflexivity|assumption].
    + simpl. intros p q Hp Hq. rewrite (Oc p Hp). auto.
  - destruct O as [(-> & ->)|(p0 & -> & Oc)].
    + split; [simpl; lia|]. split; [discriminate|].
      intros p q _ Hq. inversion Hq.
    + split; [simpl; lia|]. split; [discriminate|].
      intros p q Hp Hq. rewrite (Oc q Hq).
      apply elem_of_app in Hp as [Hp%list_elem_of_singleton|Hp];
        [congruence|symmetry; auto].
Qed.

(** C2. Over the lifetime of a connection [c] (its open event, then any
    events none of which closes [c], then its close event), the close
    handler calls [disconnectPeer] exactly for the identities created for
    [c]: once, with the created identity, when one was created, which is
    when some message of [c] decoded; not at all otherwise. The identity
    it passes is the one every [processMessage] call for [c] received. *)
Theorem C2_disconnect_once_with_same_identity c url mid code msg w :
  peer_prop w !! c = None →
  forallb (λ e, negb (on c is_close e)) mid = true →
  let tr := (deliver_all (Open c url :: mid) w).2 in
  let h := (deliver (Close c code msg) (deliver_all (Open c url :: mid) w).1).2 in
  disconnectPeer_calls (effects h) = created c (all_effects tr)
  ∧ length (disconnectPeer_calls (effects h))
    = (if existsb (on c decodes) mid then 1 else 0)%nat
  ∧ (∀ q, q ∈ calls_on c tr → disconnectPeer_calls (effects h) = [q]).
Proof.
  intros Hfresh Hmid.
  destruct (deliver_all (Open c url :: mid) w) as [w1 tr] eqn:Hd. simpl.
  assert (Hall : forallb (λ e, negb (on c is_close e)) (Open c url :: mid) = true).
  { simpl. rewrite Hmid. unfold on. simpl. rewrite andb_false_r. reflexivity. }
  pose proof (lifetime_inv c _ w w1 tr Hd Hall) as L.
  rewrite Hfresh in L. unfold step_invariant in L.
  assert (Hex : existsb (on c decodes) (Open c url :: mid)
                = existsb (on c decodes) mid).
  { simpl. unfold on. simpl. rewrite andb_false_r. reflexivity. }
  rewrite Hex in L.
  unfold deliver. destruct (handle (Close c code msg) w1) as [[r w2] out] eqn:Hh.
  simpl in *. apply close_effects in Hh as (_ & _ & _ & _ & ->).
  destruct (existsb (on c decodes) mid).
  - destruct L as (p & -> & -> & Lc). repeat split.
    intros q Hq. rewrite (Lc q Hq). reflexivity.
  - destruct L as (-> & -> & ->). repeat split.
    intros q Hq. inversion Hq.
Qed.

(** *** The connection count *)

Lemma count_step ev w w1 h :
  deliver ev w = (w1, h) →
  count w1 = count w + (if is_open ev then 1 else 0)
             - (if is_close ev then 1 else 0).
Proof.
  unfold deliver, count. destruct (handle ev w) as [[r w'] out] eqn:Hh.
  intros E. injection E as <- _.
  destruct ev as [ws url|ws msg b|ws n|ws code msg]; simpl in *.
  - apply open_effects in Hh as (_ & -> & _). simpl. lia.
  - apply message_effects in Hh as (-> & _). lia.
  - apply drain_effects in Hh as (_ & -> & _). lia.
  - apply close_effects in Hh as (-> & _). simpl. lia.
Qed.

Lemma opens_cons ev evs :
  opens (ev :: evs) = (if is_open ev then 1 else 0) + opens evs.
Proof.
  unfold opens. destruct (is_open ev) eqn:E;
    [rewrite filter_cons_True by assumption
    |rewrite filter_cons_False by congruence]; simpl length; lia.
Qed.

Lemma closes_cons ev evs :
  closes (ev :: evs) = (if is_close ev then 1 else 0) + closes evs.
Proof.
  unfold closes. destruct (is_close ev) eqn:E;
    [rewrite filter_cons_True by assumption
    |rewrite filter_cons_False by congruence]; simpl length; lia.
Qed.

Lemma count_all evs w :
  count (deliver_all evs w).1 = count w + opens evs - closes evs.
Proof.
  revert w. induction evs as [|ev evs IH]; intros w.
  - simpl. unfold opens, closes. simpl. lia.
  - destruct (deliver_all (ev :: evs) w) as [w2 tr] eqn:Hd.
    apply deliver_all_cons in Hd as (w1 & h & hs & Hd & Hr & ->).
    simpl. specialize (IH w1). rewrite Hr in IH. simpl in IH.
    rewrite IH, (count_step _ _ _ _ Hd), opens_cons, closes_cons. lia.
Qed.

(** Under the transport's discipline, at every point the closes so far
    do not exceed the opens so far plus the connections open at the start. *)
Lemma transport_ok_balance live evs :
  transport_ok live evs = true →
  ∀ k, 0 ≤ Z.of_nat (size live) + opens (take k evs) - closes (take k evs).
Proof.
  revert live. induction evs as [|ev evs IH]; intros live Hok k.
  - rewrite take_nil. unfold opens, closes. simpl. lia.
  - destruct k as [|k]; [unfold opens, closes; simpl; lia|].
    rewrite firstn_cons, opens_cons, closes_cons.
    destruct ev as [ws url|ws msg b|ws n|ws code msg]; simpl in Hok;
      apply andb_prop in Hok as [Hws Hok]; specialize (IH _ Hok k); simpl.
    + apply negb_true_iff, bool_decide_eq_false in Hws.
      rewrite size_union, size_singleton in IH
        by (apply disjoint_singleton_l; assumption).
      lia.
    + lia.
    + lia.
    + apply bool_decide_eq_true in Hws.
      assert (size live = size (live ∖ {[ws]}) + 1)%nat.
      { rewrite <- (size_singleton (C:=gset conn) ws), <- size_union.
        - f_equal. apply set_eq. intros x. rewrite elem_of_union,
            elem_of_difference, elem_of_singleton.
          destruct (decide (x = ws)) as [->|]; tauto.
        - intros x [Hx Hn]%elem_of_difference Hx'. contradiction. }
      lia.
Qed.

(** C3. From construction, after any sequence of events the connection
    count is the number of opens minus the number of closes; and when the
    sequence follows the transport's discipline (a close event fires only
    for an open connection, once), the count is never negative at any
    point of the sequence. *)
Theorem C3_connection_count registry settings evs :
  let count_after es := count (deliver_all es (initial_world registry settings)).1 in
  count_after evs = opens evs - closes evs
  ∧ (transport_ok ∅ evs = true → ∀ k, 0 ≤ count_after (take k evs)).
Proof.
  simpl. split.
  - rewrite count_all. unfold count. simpl. lia.
  - intros Hok k. rewrite count_all. unfold count. simpl.
    pose proof (transport_ok_balance ∅ evs Hok k) as B.
    rewrite size_empty in B. lia.
Qed.

(** *** Failures *)

(** C4. When [processMessage] raises a [TrackerError], the message handler
    returns normally and its last effects are the log line (at log level
    1) and the close of the connection; when [processMessage] raises
    anything else, the handler raises that same failure and closes
    nothing. *)
Theorem C4_registry_failures ws msg b w json e :
  JSON_parse (decoder_end msg) = inl json →
  throws (processMessage (tracker (bind_peer ws w).2) (heap (bind_peer ws w).2)
            json (bind_peer ws w).1) = Some e →
  let r := (message ws msg b w).1.1 in
  let out := (message ws msg b w).2 in
  if instanceof_TrackerError e
  then r = Return tt ∧ closed out = [ws]
       ∧ ∃ before, out = before
           ++ logs 1 Log [V (JStr "failed to process message from the peer:");
                          E e] w
           ++ [ws_close ws]
  else r = Raise e ∧ closed out = [].
Proof.
  intros Hp Ht.
  destruct (message_decoded ws msg b w json Hp)
    as (h & pre & o & -> & Hh & Hpre & Ho).
  rewrite Ht. simpl. unfold after_failure.
  assert (Hmk : closed match peer_prop w !! ws with
                       | Some _ => []
                       | None => [new_PeerContext ws (bind_peer ws w).1]
                       end = []) by (destruct (peer_prop w !! ws); reflexivity).
  change (call_processMessage ?j ?p :: ?l) with ([call_processMessage j p] ++ l).
  rewrite !closed_app, Hmk, (closed_harmless pre), (closed_harmless o)
    by assumption.
  destruct (instanceof_TrackerError e).
  - split; [reflexivity|]. split.
    + rewrite (closed_app (logs _ _ _ _)), (closed_harmless (logs _ _ _ _))
        by apply logs_harmless.
      reflexivity.
    + eexists. rewrite !app_assoc. reflexivity.
  - split; reflexivity.
Qed.

(** C5. On a payload that does not decode, the message handler returns
    normally, closes the connection, changes nothing, creates no identity
    and does not call the registry; and after the open, that message and
    the close event of a connection the count is what it was before the
    open. *)
Theorem C5_undecodable_payload ws url msg b code cmsg w e :
  JSON_parse (decoder_end msg) = inr e →
  let r := (message ws msg b w).1.1 in
  let w1 := (message ws msg b w).1.2 in
  let out := (message ws msg b w).2 in
  r = Return tt ∧ w1 = w ∧ closed out = [ws]
  ∧ processMessage_calls out = [] ∧ disconnectPeer_calls out = []
  ∧ (∀ c, created c out = [])
  ∧ count (deliver_all [Open ws url; Message ws msg b; Close ws code cmsg] w).1
    = count w.
Proof.
  intros Hp. cbv zeta.
  destruct (message ws msg b w) as [[r w1] out] eqn:Hm.
  pose proof (message_effects _ _ _ _ _ _ _ Hm) as (_ & Hd & M).
  rewrite Hp in M. cbn [fst snd].
  assert (M' : r = Return tt ∧ w1 = w ∧ (∀ c, created c out = [])
               ∧ processMessage_calls out = [] ∧ closed out = [ws])
    by (destruct (peer_prop w !! ws); exact M).
  destruct M' as (-> & -> & Hc & Hpm & Hcl).
  repeat split; try assumption.
  rewrite count_all, !opens_cons, !closes_cons. unfold opens, closes. simpl. lia.
Qed.

(** C6 (as the code has it). The drain handler returns normally, changes
    nothing, and its only effect is one console line with the buffered
    amount, emitted exactly when the log level is 1; at any other level,
    2 included, it does nothing at all. *)
Theorem C6_drain_logs_at_level_1_only ws bufferedAmount w :
  drain ws bufferedAmount w =
    (Return tt, w,
     if strict_eq_num (logLevel (this w)) 1
     then [console Info [V (JStr "ws backpressure"); V (JNum bufferedAmount)]]
     else []).
Proof. apply drain_spec. Qed.

(** *** Verbosity does not interfere *)

Lemma hush_inv w1 w2 :
  hush w1 = hush w2 ↔
  app_ (this w1) = app_ (this w2)
  ∧ webSocketsCount (this w1) = webSocketsCount (this w2)
  ∧ tracker w1 = tracker w2 ∧ peer_prop w1 = peer_prop w2
  ∧ heap w1 = heap w2.
Proof.
  destruct w1 as [[a1 l1 n1 s1] t1 p1 h1], w2 as [[a2 l2 n2 s2] t2 p2 h2].
  unfold hush, set_this. simpl. split.
  - intros E. injection E as -> -> -> -> ->. repeat split.
  - intros (-> & -> & -> & -> & ->). reflexivity.
Qed.

Lemma hush_at_level l w : hush (at_level l w) = hush w.
Proof. destruct w as [[a l0 n s] t p h]. reflexivity. Qed.

Lemma quiet_app o1 o2 : quiet (o1 ++ o2) = quiet o1 ++ quiet o2.
Proof. apply filter_app. Qed.

Lemma sim_refl_on {A} (m : M A) w1 w2 :
  noninterfering m → hush w1 = hush w2 → sim (m w1) (m w2).
Proof. intros H. apply H. Qed.

Lemma ni_ret {A} (a : A) : noninterfering (mret a).
Proof. intros w1 w2 H. repeat split; assumption. Qed.

Lemma ni_raise {A} e : noninterfering (raise (A:=A) e).
Proof. intros w1 w2 H. repeat split; assumption. Qed.

Lemma ni_emit e : noninterfering (emit e).
Proof. intros w1 w2 H. repeat split; assumption. Qed.

Lemma ni_modify f :
  (∀ w1 w2, hush w1 = hush w2 → hush (f w1) = hush (f w2)) →
  noninterfering (modify f).
Proof. intros Hf w1 w2 H. repeat split. apply Hf, H. Qed.

Lemma ni_bind {A B} (m : M A) (f : A → M B) :
  noninterfering m → (∀ a, noninterfering (f a)) → noninterfering (m ≫= f).
Proof.
  intros Hm Hf w1 w2 H. unfold mbind, M_bind.
  destruct (Hm w1 w2 H) as (R & W & Q).
  destruct (m w1) as [[r1 w1'] o1], (m w2) as [[r2 w2'] o2]. simpl in *.
  subst r2. destruct r1 as [a|e].
  - destruct (Hf a w1' w2' W) as (R' & W' & Q').
    destruct (f a w1') as [[r1 w1''] o1'], (f a w2') as [[r2 w2''] o2'].
    unfold sim in *; cbn [fst snd] in *. repeat split; try assumption.
    rewrite !quiet_app. congruence.
  - repeat split; assumption.
Qed.

Lemma ni_get_bind {A} (k : world T → M A) :
  (∀ w1 w2, hush w1 = hush w2 → sim (k w1 w1) (k w2 w2)) →
  noninterfering (get ≫= k).
Proof.
  intros Hk w1 w2 H. unfold mbind, M_bind, get.
  destruct (Hk w1 w2 H) as (R & W & Q).
  destruct (k w1 w1) as [[r1 w1'] o1], (k w2 w2) as [[r2 w2'] o2].
  repeat split; assumption.
Qed.

Lemma ni_try_catch {A} (body : M A) handler :
  noninterfering body → (∀ e, noninterfering (handler e)) →
  noninterfering (try_catch body handler).
Proof.
  intros Hm Hf w1 w2 H. unfold try_catch.
  destruct (Hm w1 w2 H) as (R & W & Q).
  destruct (body w1) as [[r1 w1'] o1], (body w2) as [[r2 w2'] o2]. simpl in *.
  subst r2. destruct r1 as [a|e].
  - repeat split; assumption.
  - destruct (Hf e w1' w2' W) as (R' & W' & Q').
    destruct (handler e w1') as [[r1 w1''] o1'],
      (handler e w2') as [[r2 w2''] o2'].
    unfold sim in *; cbn [fst snd] in *. repeat split; try assumption.
    rewrite !quiet_app. congruence.
Qed.

Lemma ni_if_logLevel n m args : noninterfering (if_logLevel n m args).
Proof.
  intros w1 w2 H. rewrite !if_logLevel_spec. repeat split; [assumption|].
  simpl. rewrite !logs_quiet. reflexivity.
Qed.

Lemma ni_sendMessage peer json : noninterfering (sendMessage peer json).
Proof.
  apply ni_get_bind. intros w1 w2 H.
  pose proof (proj1 (hush_inv _ _) H) as (_ & _ & _ & _ & Hh). rewrite Hh.
  destruct (heap w2 !! peer) as [ctx|].
  - apply sim_refl_on; [|assumption].
    apply ni_bind; [apply ni_emit|intros ?; apply ni_if_logLevel].
  - apply ni_ret. assumption.
Qed.

Lemma ni_set_heap f : noninterfering (modify (set_heap f)).
Proof.
  apply ni_modify. intros w1 w2 H. apply hush_inv. apply hush_inv in H.
  destruct w1 as [[] ? ? ?], w2 as [[] ? ? ?]. simpl in *.
  destruct H as (? & ? & ? & ? & ?). repeat split; congruence.
Qed.

Lemma ni_set_peer_prop f : noninterfering (modify (set_peer_prop f)).
Proof.
  apply ni_modify. intros w1 w2 H. apply hush_inv. apply hush_inv in H.
  destruct w1 as [[] ? ? ?], w2 as [[] ? ? ?]. simpl in *.
  destruct H as (? & ? & ? & ? & ?). repeat split; congruence.
Qed.

Lemma ni_set_tracker t : noninterfering (modify (set_tracker t)).
Proof.
  apply ni_modify. intros w1 w2 H. apply hush_inv. apply hush_inv in H.
  destruct w1 as [[] ? ? ?], w2 as [[] ? ? ?]. simpl in *.
  destruct H as (? & ? & ? & ? & ?). repeat split; congruence.
Qed.

Lemma ni_add_count d : noninterfering (modify (set_this (add_count d))).
Proof.
  apply ni_modify. intros w1 w2 H. apply hush_inv. apply hush_inv in H.
  destruct w1 as [[] ? ? ?], w2 as [[] ? ? ?]. simpl in *.
  destruct H as (? & ? & ? & ? & ?). repeat split; congruence.
Qed.

Lemma ni_perform_all l : noninterfering (perform_all l).
Proof.
  induction l as [|a l IH]; simpl; [apply ni_ret|].
  apply ni_bind; [|intros ?; exact IH].
  destruct a; simpl; [apply ni_set_heap|apply ni_sendMessage].
Qed.

Lemma ni_call e op : noninterfering (call e op).
Proof.
  apply ni_get_bind. intros w1 w2 H.
  pose proof (proj1 (hush_inv _ _) H) as (_ & _ & -> & _ & ->).
  apply sim_refl_on; [|assumption].
  apply ni_bind; [apply ni_emit|intros ?].
  apply ni_bind; [apply ni_set_tracker|intros ?].
  apply ni_bind; [apply ni_perform_all|intros ?].
  destruct (throws _); [apply ni_raise|apply ni_ret].
Qed.

Lemma ni_open ws url : noninterfering (open ws url).
Proof. apply ni_bind; [apply ni_add_count|intros ?; apply ni_if_logLevel]. Qed.

Lemma ni_drain ws n : noninterfering (drain ws n).
Proof. apply ni_if_logLevel. Qed.

Lemma ni_close ws code msg : noninterfering (close ws code msg).
Proof.
  apply ni_bind; [apply ni_add_count|intros ?].
  apply ni_get_bind. intros w1 w2 H.
  pose proof (proj1 (hush_inv _ _) H) as (_ & _ & _ & -> & _).
  apply sim_refl_on; [|assumption].
  apply ni_bind; [|intros ?; apply ni_if_logLevel].
  destruct (peer_prop w2 !! ws); [|apply ni_ret].
  apply ni_bind; [apply ni_set_peer_prop|intros ?; apply ni_call].
Qed.

Lemma ni_message ws msg b : noninterfering (message ws msg b).
Proof.
  apply ni_bind; [apply ni_if_logLevel|intros ?].
  apply ni_bind.
  - apply ni_try_catch.
    + destruct (JSON_parse _); [apply ni_ret|apply ni_raise].
    + intros e. apply ni_bind; [apply ni_if_logLevel|intros ?].
      apply ni_bind; [apply ni_emit|intros ?; apply ni_ret].
  - intros [json|]; [|apply ni_ret].
    apply ni_get_bind. intros w1 w2 H.
    pose proof (proj1 (hush_inv _ _) H) as (_ & _ & _ & -> & ->).
    apply sim_refl_on; [|assumption].
    apply ni_bind; [apply ni_if_logLevel|intros ?].
    apply ni_bind.
    + destruct (peer_prop w2 !! ws); [apply ni_ret|].
      apply ni_bind; [apply ni_set_heap|intros ?].
      apply ni_bind; [apply ni_emit|intros ?].
      apply ni_bind; [apply ni_set_peer_prop|intros ?; apply ni_ret].
    + intros peer. apply ni_try_catch; [apply ni_call|].
      intros e. apply ni_bind; [|intros ?; apply ni_emit].
      destruct (instanceof_TrackerError e); [apply ni_if_logLevel|apply ni_raise].
Qed.

Lemma ni_handle ev : noninterfering (handle ev).
Proof.
  destruct ev; simpl;
    [apply ni_open|apply ni_message|apply ni_drain|apply ni_close].
Qed.

Lemma observe_hush evs w1 w2 :
  hush w1 = hush w2 → observe evs w1 = observe evs w2.
Proof.
  revert w1 w2. induction evs as [|ev evs IH]; intros w1 w2 H; [reflexivity|].
  cbn [observe]. unfold deliver.
  destruct (ni_handle ev w1 w2 H) as (R & W & Q).
  destruct (handle ev w1) as [[r1 w1'] o1], (handle ev w2) as [[r2 w2'] o2].
  unfold sim in *; cbn [fst snd] in *. subst r2.
  pose proof (proj1 (hush_inv _ _) W) as (_ & -> & -> & -> & ->).
  cbn [effects raised]. rewrite Q, (IH _ _ W). reflexivity.
Qed.

(** C10. For every sequence of transport events and every two log levels,
    the gateway configured at the one and at the other is observed alike,
    event by event, in everything but console output: the same effects in
    the same order (closes, writes, identity creations, calls of
    [processMessage] and [disconnectPeer] with their arguments), the same
    failures raised, the same connection count, the same bindings, the
    same identity objects and the same registry state. *)
Theorem C10_verbosity_noninterference evs w l1 l2 :
  observe evs (at_level l1 w) = observe evs (at_level l2 w).
Proof. apply observe_hush. rewrite !hush_at_level. reflexivity. Qed.

(** ** More about the gateway *)

(** *** Relations kept by every step of the handlers *)

Section Relating.

Variable touched : conn → Prop.
Variable R : world T → world T → list effect → Prop.

Hypothesis R_refl : ∀ w, R w w [].
Hypothesis R_trans : ∀ w w1 w2 o1 o2,
  R w w1 o1 → R w1 w2 o2 → R w w2 (o1 ++ o2).
Hypothesis R_count : ∀ w d, R w (set_this (add_count d) w) [].
Hypothesis R_tracker : ∀ w t, R w (set_tracker t w) [].
Hypothesis R_id : ∀ w p id,
  R w (set_heap (alter (λ ctx, {| peer_id := id; socket := socket ctx |}) p) w) [].
Hypothesis R_log : ∀ w n m args,
  line_level args = n → R w w (logs n m args w).
Hypothesis R_send : ∀ w p ctx data,
  heap w !! p = Some ctx → R w w [ws_send (socket ctx) data false false].
Hypothesis R_close : ∀ w ws, touched ws → R w w [ws_close ws].
Hypothesis R_new : ∀ w ws,
  touched ws → peer_prop w !! ws = None →
  R w (bind_peer ws w).2 [new_PeerContext ws (length (heap w))].
Hypothesis R_process : ∀ w ws json p,
  touched ws → peer_prop w !! ws = Some p →
  R w w [call_processMessage json p].
Hypothesis R_disconnect : ∀ w ws p,
  touched ws → peer_prop w !! ws = Some p →
  R w (set_peer_prop (delete ws) w) [call_disconnectPeer p].

Lemma sat_ret {A} (a : A) w : sat_at R (mret a) w.
Proof. apply R_refl. Qed.

Lemma sat_raise {A} e w : sat_at R (raise (A:=A) e) w.
Proof. apply R_refl. Qed.

Lemma sat_bind {A B} (m : M A) (f : A → M B) w :
  sat_at R m w →
  (∀ a, (m w).1.1 = Return a → sat_at R (f a) (m w).1.2) →
  sat_at R (m ≫= f) w.
Proof.
  unfold sat_at, mbind, M_bind. destruct (m w) as [[r w1] o1]. cbn [fst snd].
  intros H1 H2. destruct r as [a|e]; [|exact H1].
  specialize (H2 a eq_refl). destruct (f a w1) as [[r2 w2] o2].
  cbn [fst snd] in *. eapply R_trans; eassumption.
Qed.

Lemma sat_try_catch {A} (body : M A) handler w :
  sat_at R body w →
  (∀ e, (body w).1.1 = Raise e → sat_at R (handler e) (body w).1.2) →
  sat_at R (try_catch body handler) w.
Proof.
  unfold sat_at, try_catch. destruct (body w) as [[r w1] o1]. cbn [fst snd].
  intros H1 H2. destruct r as [a|e]; [exact H1|].
  specialize (H2 e eq_refl). destruct (handler e w1) as [[r2 w2] o2].
  cbn [fst snd] in *. eapply R_trans; eassumption.
Qed.

Lemma sat_get {A} (k : world T → M A) w :
  sat_at R (k w) w → sat_at R (get ≫= k) w.
Proof.
  unfold sat_at, mbind, M_bind, get. destruct (k w w) as [[r w1] o1].
  exact id.
Qed.

Lemma sat_log n m args w :
  line_level args = n → sat_at R (if_logLevel n m args) w.
Proof.
  intros H. unfold sat_at. rewrite if_logLevel_spec. apply R_log, H.
Qed.

Lemma sat_sendMessage peer json w : sat_at R (sendMessage peer json) w.
Proof.
  apply sat_get. destruct (heap w !! peer) as [ctx|] eqn:Hp; [|apply sat_ret].
  apply sat_bind; [apply (R_send _ _ _ _ Hp)|].
  intros _ _. apply sat_log. reflexivity.
Qed.

Lemma sat_perform_all l w : sat_at R (perform_all l) w.
Proof.
  revert w. induction l as [|a l IH]; intros w; [apply sat_ret|].
  apply sat_bind; [|intros ? ?; apply IH].
  destruct a; [apply R_id|apply sat_sendMessage].
Qed.

Lemma sat_call w0 e op w :
  R w0 w [e] → R w0 (call e op w).1.2 (call e op w).2.
Proof.
  intros He. set (r := op (tracker w) (heap w)).
  assert (sat_at R (modify (set_tracker (next r));;
                    perform_all (actions r);;
                    match throws r with
                    | Some e => raise e
                    | None => mret tt
                    end) w) as H.
  { apply sat_bind; [apply R_tracker|intros ? ?].
    apply sat_bind; [apply sat_perform_all|intros ? ?].
    destruct (throws r); [apply sat_raise|apply sat_ret]. }
  unfold sat_at in H. subst r. unfold call.
  unfold mbind, M_bind, get, emit, modify in *. cbv beta iota zeta in *.
  destruct (perform_all _ _) as [[[] w1] o1].
  - destruct (throws _); unfold raise, mret, M_ret in *;
      cbn [fst snd app] in *; apply (R_trans _ _ _ [e] _ He H).
  - cbn [fst snd app] in *. apply (R_trans _ _ _ [e] _ He H).
Qed.

Lemma sat_modify_then {A} f (m : M A) w :
  R w (m (f w)).1.2 (m (f w)).2 → sat_at R (modify f;; m) w.
Proof.
  unfold sat_at, mbind, M_bind, modify. destruct (m (f w)) as [[r w1] o].
  exact id.
Qed.

Lemma sat_handle ev w : touched (event_ws ev) → sat_at R (handle ev) w.
Proof.
  destruct ev as [ws url|ws msg b|ws n|ws code msg]; cbn [handle event_ws];
    intros Hws.
  - apply sat_bind; [apply R_count|intros ? ?]. apply sat_log. reflexivity.
  - apply sat_bind; [apply sat_log; reflexivity|intros ? ?].
    apply sat_bind.
    + apply sat_try_catch.
      * destruct (JSON_parse _); [apply sat_ret|apply sat_raise].
      * intros e ?. apply sat_bind; [apply sat_log; reflexivity|intros ? ?].
        apply sat_bind; [apply R_close, Hws|intros ? ?; apply sat_ret].
    + intros [json|] ?; [|apply sat_ret]. apply sat_get.
      match goal with |- sat_at R _ ?w' => set (w0 := w') end.
      apply sat_bind; [apply sat_log; reflexivity|intros ? ?].
      rewrite if_logLevel_spec. cbn [fst snd].
      assert (∀ peer w1, peer_prop w1 !! ws = Some peer →
                sat_at R
                  (try_catch (tracker_processMessage json peer)
                     (λ e,
                       (if instanceof_TrackerError e
                        then if_logLevel 1 Log
                               [V (JStr "failed to process message from the peer:");
                                E e]
                        else raise e);;
                       emit (ws_close ws))) w1) as Hrest.
      { intros peer w1 Hb. apply sat_try_catch.
        - apply sat_call. eapply R_process; eassumption.
        - intros e ?. apply sat_bind; [|intros ? ?; apply R_close, Hws].
          destruct (instanceof_TrackerError e);
            [apply sat_log; reflexivity|apply sat_raise]. }
      pose proof (R_new w0 ws Hws) as N. unfold bind_peer in N.
      destruct (peer_prop w0 !! ws) as [p|] eqn:Hb.
      * apply sat_bind; [apply sat_ret|]. intros peer Hp.
        apply Hrest. injection Hp as <-. exact Hb.
      * specialize (N eq_refl). cbn [snd] in N. apply sat_bind.
        -- exact N.
        -- intros peer Hp. apply Hrest. injection Hp as <-.
           cbn [fst snd peer_prop set_peer_prop]. apply lookup_insert_eq.
  - apply sat_log. reflexivity.
  - apply sat_bind; [apply R_count|intros ? ?]. apply sat_get.
    match goal with |- sat_at R _ ?w' => set (w0 := w') end.
    apply sat_bind; [|intros ? ?; apply sat_log; reflexivity].
    destruct (peer_prop w0 !! ws) as [p|] eqn:Hb; [|apply sat_ret].
    apply sat_modify_then, sat_call. eapply R_disconnect; eassumption.
Qed.

Lemma deliver_effects ev w :
  (deliver ev w).1 = (handle ev w).1.2
  ∧ effects (deliver ev w).2 = (handle ev w).2.
Proof. unfold deliver. destruct (handle ev w) as [[r w1] o]. split; reflexivity. Qed.

Lemma related_deliver ev w :
  touched (event_ws ev) → R w (deliver ev w).1 (effects (deliver ev w).2).
Proof.
  destruct (deliver_effects ev w) as [-> ->]. apply sat_handle.
Qed.

Lemma related_deliver_all evs w :
  Forall (λ ev, touched (event_ws ev)) evs →
  R w (deliver_all evs w).1 (all_effects (deliver_all evs w).2).
Proof.
  intros Hevs. revert w.
  induction Hevs as [|ev evs Hev Hevs IH]; intros w; [apply R_refl|].
  cbn [deliver_all]. pose proof (related_deliver ev w Hev) as H1.
  destruct (deliver ev w) as [w1 h]. specialize (IH w1).
  destruct (deliver_all evs w1) as [w2 hs]. cbn [fst snd] in *.
  unfold all_effects. cbn [flat_map]. eapply R_trans; eassumption.
Qed.

End Relating.

(** *** Helper facts on traces and identity objects *)

Lemma news_app o1 o2 : news (o1 ++ o2) = news o1 ++ news o2.
Proof. apply omap_app. Qed.

Lemma logs_cases n m args w :
  logs n m args w = [] ∨ logs n m args w = [console m args]
                        ∧ strict_eq_num (logLevel (this w)) n = true.
Proof. unfold logs. destruct (strict_eq_num _ _); auto. Qed.

Lemma length_sockets w : length (sockets w) = length (heap w).
Proof. apply length_map. Qed.

Lemma sockets_alter id p h :
  map socket (alter (λ ctx, {| peer_id := id; socket := socket ctx |}) p h)
  = map socket h.
Proof.
  revert p. induction h as [|x h IH]; intros [|p]; cbn; try reflexivity.
  f_equal. apply IH.
Qed.

Lemma send_ok_mono S1 S2 e : (∀ c, c ∈ S1 → c ∈ S2) → send_ok S1 e → send_ok S2 e.
Proof. destruct e; cbn; try tauto. intros H (?&?&?). auto. Qed.

(** *** The console *)

Lemma console_related evs w :
  R_console w (deliver_all evs w).1 (all_effects (deliver_all evs w).2).
Proof.
  apply (related_deliver_all (λ _, True) R_console);
    unfold R_console; try (intros; split; reflexivity).
  - intros w0 w1 w2 o1 o2 [E1 A1] [E2 A2]. split; [congruence|].
    rewrite forallb_app, A1. rewrite E1 in A2. exact A2.
  - intros w0 n m args <-. split; [reflexivity|].
    destruct (logs_cases (line_level args) m args w0) as [->|[-> H]];
      [reflexivity|]. cbn. rewrite H. reflexivity.
  - intros w0 ws _ Hb. unfold bind_peer. rewrite Hb. split; reflexivity.
  - apply Forall_true. intros; exact I.
Qed.

(** *** The identity objects *)

Lemma identities_related evs w :
  R_identities w (deliver_all evs w).1 (all_effects (deliver_all evs w).2).
Proof.
  apply (related_deliver_all (λ _, True) R_identities); unfold R_identities.
  - intros w0. cbn. rewrite app_nil_r. repeat split. constructor.
  - intros w0 w1 w2 o1 o2 (S1 & Q1 & F1) (S2 & Q2 & F2).
    rewrite news_app, !fmap_app, length_app. split; [|split].
    + rewrite S2, S1, <- app_assoc. reflexivity.
    + rewrite seq_app, Q1, Q2. do 2 f_equal.
      rewrite <- !length_sockets, S1, length_app, length_fmap. reflexivity.
    + apply Forall_app. split; [|exact F2].
      eapply Forall_impl; [exact F1|]. intros e. apply send_ok_mono.
      intros c Hc. rewrite S2. apply elem_of_app. left. exact Hc.
  - intros w0 d. cbn. rewrite app_nil_r. repeat split. constructor.
  - intros w0 t. cbn. rewrite app_nil_r. repeat split. constructor.
  - intros w0 p id. unfold sockets. cbn. rewrite sockets_alter, app_nil_r.
    repeat split. constructor.
  - intros w0 n m args _.
    destruct (logs_cases n m args w0) as [->|[-> _]]; cbn;
      rewrite app_nil_r; repeat split; repeat constructor.
  - intros w0 p ctx data Hp. cbn. rewrite app_nil_r. repeat split.
    repeat constructor. unfold sockets.
    apply (list_elem_of_fmap_2 socket), (list_elem_of_lookup_2 _ p), Hp.
  - intros w0 ws _. cbn. rewrite app_nil_r. repeat split. repeat constructor.
  - intros w0 ws _ Hb. unfold bind_peer. rewrite Hb. unfold sockets. cbn.
    rewrite map_app. repeat split. repeat constructor.
  - intros w0 ws json p _ _. cbn. rewrite app_nil_r. repeat split.
    repeat constructor.
  - intros w0 ws p _ _. cbn. rewrite app_nil_r. repeat split.
    repeat constructor.
  - apply Forall_true. intros; exact I.
Qed.

(** *** Bindings and disconnections *)

Lemma bound_well_same w w1 :
  peer_prop w1 = peer_prop w → sockets w1 = sockets w →
  bound_well w → bound_well w1.
Proof. unfold bound_well. intros -> ->. exact id. Qed.

Lemma once_same w w1 out :
  peer_prop w1 = peer_prop w → sockets w1 = sockets w →
  disconnectPeer_calls out = [] →
  R_once w w1 out.
Proof.
  intros Hp Hs Hd Hw. rewrite Hd.
  assert (length (heap w1) = length (heap w)) as Hl
    by (rewrite <- !length_sockets, Hs; reflexivity).
  split; [exact (bound_well_same _ _ Hp Hs Hw)|].
  split; [lia|]. split; [|split; [constructor|]].
  - intros p [ws Hb]. left. split; [|apply not_elem_of_nil].
    exists ws. rewrite <- Hp. exact Hb.
  - intros p Hin. destruct (not_elem_of_nil p Hin).
Qed.

Lemma bound_in_lt w p : bound_well w → bound_in w p → (p < length (heap w))%nat.
Proof.
  intros Hw [ws Hb]. rewrite <- length_sockets.
  eapply lookup_lt_Some, Hw, Hb.
Qed.

Lemma once_related evs w :
  R_once w (deliver_all evs w).1 (all_effects (deliver_all evs w).2).
Proof.
  apply (related_deliver_all (λ _, True) R_once).
  - intros w0. apply once_same; reflexivity.
  - intros w0 w1 w2 o1 o2 H1 H2 Hw.
    destruct (H1 Hw) as (Hw1 & L1 & B1 & N1 & D1).
    destruct (H2 Hw1) as (Hw2 & L2 & B2 & N2 & D2).
    rewrite disconnectPeer_calls_app.
    split; [exact Hw2|]. split; [lia|]. split; [|split].
    + intros p Hp. destruct (B2 p Hp) as [[Hp1 Hn2]|Hge]; [|right; lia].
      destruct (B1 p Hp1) as [[Hp0 Hn1]|Hge]; [|right; lia].
      left. split; [exact Hp0|]. apply not_elem_of_app. split; assumption.
    + apply NoDup_app. split; [exact N1|]. split; [|exact N2].
      intros p Hp1 Hp2. destruct (D1 p Hp1) as (Hn & Hlt & _).
      destruct (D2 p Hp2) as (_ & _ & [Hb|Hge]); [exact (Hn Hb)|lia].
    + intros p Hp. apply elem_of_app in Hp. destruct Hp as [Hp|Hp].
      * destruct (D1 p Hp) as (Hn & Hlt & Hfrom).
        split; [|split; [lia|exact Hfrom]].
        intros Hb. destruct (B2 p Hb) as [[Hb1 _]|Hge]; [exact (Hn Hb1)|lia].
      * destruct (D2 p Hp) as (Hn & Hlt & Hfrom).
        split; [exact Hn|]. split; [exact Hlt|].
        destruct Hfrom as [Hb1|Hge]; [|right; lia].
        destruct (B1 p Hb1) as [[Hb0 _]|Hge]; [left; exact Hb0|right; lia].
  - intros w0 d. apply once_same; reflexivity.
  - intros w0 t. apply once_same; reflexivity.
  - intros w0 p id. apply once_same; try reflexivity. apply sockets_alter.
  - intros w0 n m args _. apply once_same; try reflexivity.
    apply disconnectPeer_calls_harmless, logs_harmless.
  - intros w0 p ctx data _. apply once_same; reflexivity.
  - intros w0 ws _. apply once_same; reflexivity.
  - intros w0 ws _ Hb Hw. unfold bind_peer. rewrite Hb. cbn [snd].
    cbn [disconnectPeer_calls omap]. split; [|split; [|split; [|split]]].
    + intros ws' p. unfold sockets. cbn. rewrite map_app.
      intros Hl. apply lookup_insert_Some in Hl.
      destruct Hl as [[<- <-]|[Hne Hl]].
      * rewrite lookup_app_r by (rewrite length_map; lia).
        rewrite length_map, Nat.sub_diag. reflexivity.
      * apply lookup_app_l_Some, Hw, Hl.
    + cbn. rewrite length_app. lia.
    + intros p [ws' Hl]. cbn in Hl. apply lookup_insert_Some in Hl.
      destruct Hl as [[<- <-]|[Hne Hl]]; [right; lia|].
      left. split; [exists ws'; exact Hl|apply not_elem_of_nil].
    + constructor.
    + intros p Hin. destruct (not_elem_of_nil p Hin).
  - intros w0 ws json p _ _. apply once_same; reflexivity.
  - intros w0 ws p _ Hb Hw. cbn [disconnectPeer_calls omap].
    assert (¬ bound_in (set_peer_prop (delete ws) w0) p) as Hgone.
    { intros [ws' Hl]. cbn in Hl. apply lookup_delete_Some in Hl.
      destruct Hl as [Hne Hl]. apply Hw in Hl. apply Hw in Hb.
      congruence. }
    split; [|split; [|split; [|split]]].
    + intros ws' q Hl. cbn in Hl. apply lookup_delete_Some in Hl.
      apply Hw, Hl.
    + cbn. lia.
    + intros q [ws' Hl]. left. split.
      * cbn in Hl. apply lookup_delete_Some in Hl. exists ws'. apply Hl.
      * intros Hq. apply list_elem_of_singleton in Hq. subst q.
        apply Hgone. exists ws'. exact Hl.
    + apply NoDup_singleton.
    + intros q Hq. apply list_elem_of_singleton in Hq. subst q.
      split; [exact Hgone|]. split.
      * apply (bound_in_lt w0 p Hw). exists ws. exact Hb.
      * left. exists ws. exact Hb.
  - apply Forall_true. intros; exact I.
Qed.

(** *** Events of other connections *)

Lemma isolated_related c evs w :
  Forall (λ ev, event_ws ev ≠ c) evs →
  R_isolated c w (deliver_all evs w).1 (all_effects (deliver_all evs w).2).
Proof.
  apply (related_deliver_all (λ ws, ws ≠ c) (R_isolated c));
    unfold R_isolated.
  - intros w0. repeat split. apply not_elem_of_nil.
  - intros w0 w1 w2 o1 o2 (E1 & C1 & X1) (E2 & C2 & X2).
    rewrite created_app, closed_app, C1, C2. split; [congruence|].
    split; [reflexivity|]. apply not_elem_of_app. split; assumption.
  - intros w0 d. repeat split. apply not_elem_of_nil.
  - intros w0 t. repeat split. apply not_elem_of_nil.
  - intros w0 p id. repeat split. apply not_elem_of_nil.
  - intros w0 n m args _. split; [reflexivity|].
    rewrite created_harmless, closed_harmless by apply logs_harmless.
    split; [reflexivity|apply not_elem_of_nil].
  - intros w0 p ctx data _. repeat split. apply not_elem_of_nil.
  - intros w0 ws Hne. repeat split. cbn. intros Hin.
    apply list_elem_of_singleton in Hin. congruence.
  - intros w0 ws Hne Hb. unfold bind_peer. rewrite Hb. cbn.
    rewrite lookup_insert_ne by exact Hne. split; [reflexivity|].
    destruct (decide (ws = c)) as [|_]; [contradiction|].
    split; [reflexivity|apply not_elem_of_nil].
  - intros w0 ws json p _ _. repeat split. apply not_elem_of_nil.
  - intros w0 ws p Hne _. cbn. rewrite lookup_delete_ne by exact Hne.
    repeat split. apply not_elem_of_nil.
Qed.

(** *** The configuration *)

Lemma configured_related evs w :
  R_configured w (deliver_all evs w).1 (all_effects (deliver_all evs w).2).
Proof.
  apply (related_deliver_all (λ _, True) R_configured);
    unfold R_configured; try (intros; repeat split; reflexivity).
  - intros w0 w1 w2 o1 o2 (A1 & L1 & S1) (A2 & L2 & S2).
    repeat split; congruence.
  - intros w0 ws _ Hb. unfold bind_peer. rewrite Hb. repeat split.
  - apply Forall_true. intros; exact I.
Qed.

(** *** What holds of every run *)

Lemma allowed_quiet l out :
  strict_eq_num l 1 = false → strict_eq_num l 2 = false →
  forallb (allowed l) out = true → quiet out = out.
Proof.
  intros H1 H2. induction out as [|e out IH]; [reflexivity|].
  cbn [forallb]. intros H. apply andb_true_iff in H. destruct H as [He Ho].
  unfold quiet in *. rewrite filter_cons.
  destruct e as [m args| | | | |]; cbn in *;
    try (rewrite IH by exact Ho; reflexivity).
  unfold line_level in He. destruct (is_trace args); congruence.
Qed.

Lemma others_Forall c evs :
  forallb (λ ev, negb (bool_decide (event_ws ev = c))) evs = true →
  Forall (λ ev, event_ws ev ≠ c) evs.
Proof.
  induction evs as [|ev evs IH]; cbn [forallb]; intros H; constructor.
  - apply andb_true_iff in H. destruct H as [H _].
    apply negb_true_iff, bool_decide_eq_false in H. exact H.
  - apply IH. apply andb_true_iff in H. apply H.
Qed.

Lemma all_effects_cons h hs : all_effects (h :: hs) = effects h ++ all_effects hs.
Proof. reflexivity. Qed.

Lemma deliver_handle ev w :
  deliver ev w
  = ((handle ev w).1.2,
     {| cause := ev; effects := (handle ev w).2;
        raised := match (handle ev w).1.1 with
                  | Return _ => None
                  | Raise e => Some e
                  end |}).
Proof. unfold deliver. destruct (handle ev w) as [[r w1] o]. reflexivity. Qed.

Lemma dispatch_step ev w :
  (processMessage_calls (effects (deliver ev w).2)).*1
  = match decoded ev with Some json => [json] | None => [] end.
Proof.
  rewrite deliver_handle. cbn [snd effects].
  destruct (handle ev w) as [[r w1] out] eqn:Hh. cbn [snd].
  destruct ev as [ws url|ws msg b|ws n|ws code msg]; cbn [handle decoded] in *.
  - apply open_effects in Hh. destruct Hh as (_ & _ & Hh).
    rewrite processMessage_calls_harmless by exact Hh. reflexivity.
  - apply message_effects in Hh. destruct Hh as (_ & _ & Hh).
    destruct (JSON_parse (decoder_end msg)) as [json|e].
    + destruct (peer_prop w !! ws); destruct Hh as (_ & _ & ->); reflexivity.
    + destruct Hh as (_ & _ & _ & -> & _). reflexivity.
  - apply drain_effects in Hh. destruct Hh as (_ & _ & Hh).
    rewrite processMessage_calls_harmless by exact Hh. reflexivity.
  - apply close_effects in Hh. destruct Hh as (_ & _ & _ & -> & _).
    reflexivity.
Qed.

(** X1. The log level never changes, and every console line of a run is of
    the configured level: the lines about connection events and errors are
    written at level 1 only, the "in" and "out" traces of messages at
    level 2 only. *)
Theorem console_lines_have_the_configured_level evs w :
  logLevel (this (deliver_all evs w).1) = logLevel (this w)
  ∧ forallb (allowed (logLevel (this w)))
      (all_effects (deliver_all evs w).2) = true.
Proof. exact (console_related evs w). Qed.

(** X2. At a log level that is neither the number 1 nor the number 2 the
    gateway writes nothing to the console, whatever the events. *)
Theorem silent_unless_level_1_or_2 evs w :
  strict_eq_num (logLevel (this w)) 1 = false →
  strict_eq_num (logLevel (this w)) 2 = false →
  quiet (all_effects (deliver_all evs w).2) = all_effects (deliver_all evs w).2.
Proof.
  intros H1 H2. apply (allowed_quiet _ _ H1 H2), console_related.
Qed.

(** X3. The identity objects created in a run take the next free
    addresses, one after the other, so that no two of them are the same
    object and none is an object that existed before; the objects that
    existed stay, and each object, old or new, keeps the connection it writes
    to. *)
Theorem identities_are_fresh evs w :
  let made := news (all_effects (deliver_all evs w).2) in
  made.*2 = seq (length (heap w)) (length made)
  ∧ NoDup made.*2
  ∧ sockets (deliver_all evs w).1 = sockets w ++ made.*1.
Proof.
  destruct (identities_related evs w) as (S & Q & _). cbv zeta.
  split; [exact Q|]. split; [rewrite Q; apply NoDup_seq|exact S].
Qed.

(** X4. Started from the constructed gateway, every frame written to a
    connection is a text frame, uncompressed, and goes to a connection for
    which an identity object was created in the run. *)
Theorem writes_go_to_identified_connections registry settings evs :
  let out := all_effects (deliver_all evs (initial_world registry settings)).2 in
  Forall (send_ok (news out).*1) out.
Proof.
  destruct (identities_related evs (initial_world registry settings))
    as (S & _ & F).
  cbv zeta. rewrite S in F. exact F.
Qed.

(** X5. When every bound identity is an object whose send capability
    writes to the connection it is bound to, this is still so after any
    run; two connections are then never bound to the same identity. *)
Theorem bindings_stay_well_formed evs w :
  bound_well w →
  bound_well (deliver_all evs w).1
  ∧ ∀ c1 c2 p,
      peer_prop (deliver_all evs w).1 !! c1 = Some p →
      peer_prop (deliver_all evs w).1 !! c2 = Some p → c1 = c2.
Proof.
  intros Hw. destruct (once_related evs w Hw) as (Hw' & _).
  split; [exact Hw'|]. intros c1 c2 p H1 H2.
  apply Hw' in H1. apply Hw' in H2. congruence.
Qed.

(** X6. From well-formed bindings, no identity is passed to
    [disconnectPeer] twice in a run; an identity passed to it is bound to no
    connection afterwards, and it was bound at the start or created in the
    run. *)
Theorem no_identity_is_disconnected_twice evs w :
  bound_well w →
  let out := all_effects (deliver_all evs w).2 in
  NoDup (disconnectPeer_calls out)
  ∧ Forall (λ p, ¬ bound_in (deliver_all evs w).1 p
                 ∧ (bound_in w p ∨ p ∈ (news out).*2))
      (disconnectPeer_calls out).
Proof.
  intros Hw. destruct (once_related evs w Hw) as (_ & _ & _ & N & D).
  destruct (identities_related evs w) as (S & Q & _). cbv zeta.
  split; [exact N|]. apply Forall_forall. intros p Hp.
  destruct (D p Hp) as (Hn & Hlt & Hfrom). split; [exact Hn|].
  destruct Hfrom as [Hb|Hge]; [left; exact Hb|right].
  rewrite Q. apply elem_of_seq.
  rewrite <- !length_sockets, S, length_app, length_fmap in Hlt.
  rewrite length_sockets in Hlt. lia.
Qed.

(** X7. A run without events of connection [c] leaves [c] alone: its
    binding is as before, no identity is created for it, it is never closed
    by the gateway, and (from well-formed bindings) its identity is not
    passed to [disconnectPeer]. *)
Theorem other_connections_are_left_alone c evs w :
  forallb (λ ev, negb (bool_decide (event_ws ev = c))) evs = true →
  let out := all_effects (deliver_all evs w).2 in
  peer_prop (deliver_all evs w).1 !! c = peer_prop w !! c
  ∧ created c out = []
  ∧ (c ∉ closed out)
  ∧ (bound_well w →
     ∀ p, peer_prop w !! c = Some p → p ∉ disconnectPeer_calls out).
Proof.
  intros Hevs. apply others_Forall in Hevs.
  destruct (isolated_related c evs w Hevs) as (E & C & X). cbv zeta.
  split; [exact E|]. split; [exact C|]. split; [exact X|].
  intros Hw p Hb Hp.
  destruct (once_related evs w Hw) as (_ & _ & _ & _ & D).
  destruct (D p Hp) as (Hn & _). apply Hn. exists c. congruence.
Qed.

(** X8. After any run the [stats] getter reports the count at the start
    plus the open events minus the close events, and the application kind,
    the log level and the settings are those of the start. *)
Theorem stats_after_a_run evs w :
  let g := this (deliver_all evs w).1 in
  stats g
  = JObj [("webSocketsCount", JNum (count w + opens evs - closes evs))]
  ∧ app_ g = app_ (this w)
  ∧ logLevel g = logLevel (this w)
  ∧ settings g = settings (this w).
Proof.
  cbv zeta. split; [|exact (configured_related evs w)].
  unfold stats. rewrite <- count_all. reflexivity.
Qed.

(** X9. The payloads passed to [processMessage] in a run are exactly the
    decoded payloads of the message events that decode, each once and in
    the order of arrival. *)
Theorem decodable_messages_are_dispatched_in_order evs w :
  (processMessage_calls (all_effects (deliver_all evs w).2)).*1
  = omap decoded evs.
Proof.
  revert w. induction evs as [|ev evs IH]; intros w; [reflexivity|].
  cbn [deliver_all]. pose proof (dispatch_step ev w) as Hs.
  destruct (deliver ev w) as [w1 h]. specialize (IH w1).
  destruct (deliver_all evs w1) as [w2 hs]. cbn [fst snd] in *.
  rewrite all_effects_cons, processMessage_calls_app, fmap_app, Hs, IH.
  change (omap decoded (ev :: evs))
    with (match decoded ev with
          | Some json => json :: omap decoded evs
          | None => omap decoded evs
          end).
  destruct (decoded ev); reflexivity.
Qed.

(** X10. A handler lets an exception escape only when the registry threw
    it: the message handler an exception of [processMessage] that is not a
    [TrackerError], the close handler an exception of [disconnectPeer]; the
    open and drain handlers never do. *)
Theorem handlers_raise_only_what_the_registry_throws ev w e :
  raised (deliver ev w).2 = Some e →
  match ev with
  | Message ws msg b =>
      ∃ json,
        decoded ev = Some json
        ∧ throws (processMessage (tracker (bind_peer ws w).2)
                    (heap (bind_peer ws w).2) json (bind_peer ws w).1) = Some e
        ∧ instanceof_TrackerError e = false
  | Close ws code msg =>
      ∃ p, peer_prop w !! ws = Some p
           ∧ throws (disconnectPeer (tracker w) (heap w) p) = Some e
  | _ => False
  end.
Proof.
  rewrite deliver_handle. cbn [snd raised].
  destruct ev as [ws url|ws msg b|ws n|ws code msg]; cbn [handle decoded].
  - rewrite open_spec. discriminate.
  - destruct (JSON_parse (decoder_end msg)) as [json|x] eqn:Hp.
    + destruct (message_decoded ws msg b w json Hp) as (h & pre & out & -> & _).
      cbn [fst]. intros H. exists json. split; [reflexivity|].
      destruct (throws _) as [x|]; [|discriminate].
      destruct (instanceof_TrackerError x) eqn:Hx; [discriminate|].
      injection H as <-. split; [reflexivity|exact Hx].
    + rewrite (message_undecodable ws msg b w x Hp). discriminate.
  - rewrite drain_spec. discriminate.
  - pose proof (close_spec ws code msg w) as Hc. cbv zeta in Hc.
    destruct (peer_prop w !! ws) as [p|].
    + destruct Hc as (h & out & -> & _). cbn. intros H. exists p.
      split; [reflexivity|]. destruct (throws _); [congruence|discriminate].
    + rewrite Hc. discriminate.
Qed.

(** X11. When [disconnectPeer] throws in the close handler, the exception
    leaves the handler and the line about the closed connection is not
    written; the count has been decremented and the binding removed all the
    same, and what the handler emitted is the call and what the registry
    did during it. *)
Theorem close_when_disconnectPeer_throws ws code msg w p e :
  peer_prop w !! ws = Some p →
  let r := disconnectPeer (tracker w) (heap w) p in
  throws r = Some e →
  let w0 := set_tracker (next r)
              (set_peer_prop (delete ws) (set_this (add_count (-1)) w)) in
  close ws code msg w
  = (Raise e, (perform_all (actions r) w0).1.2,
     call_disconnectPeer p :: (perform_all (actions r) w0).2).
Proof.
  cbv zeta. intros Hb Ht. unfold close, tracker_disconnectPeer, call. run_M.
  rewrite Hb.
  destruct (perform_all_spec (actions (disconnectPeer (tracker w) (heap w) p))
              (set_tracker (next (disconnectPeer (tracker w) (heap w) p))
                 (set_peer_prop (delete ws) (set_this (add_count (-1)) w))))
    as (h & out & Hp & _).
  cbn. rewrite !Hp. cbn. rewrite Ht. cbn. rewrite ?app_nil_r. reflexivity.
Qed.

(** X12. From well-formed bindings, a message sent through the identity
    bound to a connection is written to that connection, once, as the
    encoded text, uncompressed; nothing else happens but the "out" trace of
    level 2, labelled with the identifier the identity has at that time. *)
Theorem bound_identity_sends_on_its_connection ws p json w :
  bound_well w →
  peer_prop w !! ws = Some p →
  ∃ ctx,
    heap w !! p = Some ctx
    ∧ sendMessage p json w
      = (Return tt, w,
         ws_send ws (JSON_stringify json) false false
         :: logs 2 Log [V (JStr "out"); V (peer_label (peer_id ctx)); V json] w).
Proof.
  intros Hw Hb. apply Hw in Hb. unfold sockets in Hb.
  change (map socket (heap w)) with (socket <$> heap w) in Hb.
  apply list_lookup_fmap_Some in Hb. destruct Hb as (ctx & Hs & Hctx).
  exists ctx. split; [exact Hctx|].
  unfold sendMessage, mbind, M_bind, get, emit. cbv beta iota.
  destruct (heap w !! p) as [ctx0|] eqn:E;
    pose proof (eq_trans (eq_sym E) Hctx) as X; [|discriminate X].
  injection X as ->. rewrite if_logLevel_spec, <- Hs. reflexivity.
Qed.

Lemma deliver_all_world_cons ev evs w :
  (deliver_all (ev :: evs) w).1 = (deliver_all evs (deliver ev w).1).1.
Proof.
  cbn [deliver_all]. destruct (deliver ev w) as [w1 h]. cbn [fst].
  destruct (deliver_all evs w1) as [w2 hs]. reflexivity.
Qed.

Lemma deliver_world ev w :
  let w1 := (deliver ev w).1 in
  match ev with
  | Open _ _ => peer_prop w1 = peer_prop w ∧ count w1 = count w + 1
  | Message ws _ _ =>
      (peer_prop w1 = peer_prop w
       ∨ ∃ p, peer_prop w1 = <[ws := p]> (peer_prop w))
      ∧ count w1 = count w
  | Drain _ _ => peer_prop w1 = peer_prop w ∧ count w1 = count w
  | Close ws _ _ =>
      peer_prop w1 = delete ws (peer_prop w) ∧ count w1 = count w - 1
  end.
Proof.
  cbv zeta. rewrite deliver_handle. cbn [fst].
  destruct (handle ev w) as [[r w1] out] eqn:Hh. cbn [fst snd].
  destruct ev as [ws url|ws msg b|ws n|ws code msg]; cbn [handle] in Hh.
  - apply open_effects in Hh. destruct Hh as (_ & -> & _).
    split; reflexivity.
  - apply message_effects in Hh. destruct Hh as (Hg & _ & Hh).
    split; [|unfold count; rewrite Hg; reflexivity].
    destruct (JSON_parse (decoder_end msg)) as [json|e].
    + destruct (peer_prop w !! ws).
      * left. apply Hh.
      * right. eexists. apply Hh.
    + left. destruct Hh as (_ & -> & _). reflexivity.
  - apply drain_effects in Hh. destruct Hh as (_ & -> & _).
    split; reflexivity.
  - apply close_effects in Hh. destruct Hh as (Hg & Hp & _).
    split; [exact Hp|]. unfold count. rewrite Hg. cbn. lia.
Qed.

(** X13. While the transport keeps its discipline, only open connections
    are bound to an identity, and the counter moves with the number of open
    connections: started with none open and none bound, the counter is the
    number of open connections, and once all are closed no binding is
    left. *)
Theorem bindings_only_of_open_connections live evs w :
  transport_ok live evs = true →
  dom (peer_prop w) ⊆ live →
  dom (peer_prop (deliver_all evs w).1) ⊆ live_after live evs
  ∧ count (deliver_all evs w).1 - Z.of_nat (size (live_after live evs))
    = count w - Z.of_nat (size live).
Proof.
  revert live w. induction evs as [|ev evs IH]; intros live w Ht Hd.
  { split; [exact Hd|reflexivity]. }
  rewrite deliver_all_world_cons. pose proof (deliver_world ev w) as Hw.
  cbv zeta in Hw. set (w1 := (deliver ev w).1) in *. clearbody w1.
  destruct ev as [ws url|ws msg b|ws n|ws code msg];
    cbn [transport_ok live_after] in *;
    apply andb_true_iff in Ht; destruct Ht as [Hin Ht];
    destruct Hw as [Hp Hc].
  - apply negb_true_iff, bool_decide_eq_false in Hin.
    destruct (IH ({[ws]} ∪ live) w1 Ht) as [D C].
    { rewrite Hp. etrans; [exact Hd|]. apply union_subseteq_r. }
    split; [exact D|]. rewrite C, Hc.
    rewrite size_union by (apply disjoint_singleton_l; exact Hin).
    rewrite size_singleton. lia.
  - apply bool_decide_eq_true in Hin.
    destruct (IH live w1 Ht) as [D C].
    { destruct Hp as [->|[p ->]]; [exact Hd|].
      rewrite dom_insert. apply union_least; [|exact Hd].
      apply singleton_subseteq_l. exact Hin. }
    split; [exact D|]. rewrite C, Hc. reflexivity.
  - destruct (IH live w1 Ht) as [D C]; [rewrite Hp; exact Hd|].
    split; [exact D|]. rewrite C, Hc. reflexivity.
  - apply bool_decide_eq_true in Hin.
    destruct (IH (live ∖ {[ws]}) w1 Ht) as [D C].
    { rewrite Hp, dom_delete. intros c Hc'.
      apply elem_of_difference in Hc'. destruct Hc' as [Hc1 Hc2].
      apply elem_of_difference. split; [apply Hd, Hc1|exact Hc2]. }
    split; [exact D|]. rewrite C, Hc.
    assert ({[ws]} ⊆ live) as Hsub by (apply singleton_subseteq_l; exact Hin).
    rewrite size_difference by exact Hsub.
    apply subseteq_size in Hsub. rewrite size_singleton in *. lia.
Qed.

(** X18. A message that decodes leaves its connection bound to the
    identity it was dispatched with, however [processMessage] ends (also
    when it rejects the message or fails), so that the close of the
    connection passes that identity to [disconnectPeer]. *)
Theorem decodable_message_binds_its_connection ws msg b w json :
  JSON_parse (decoder_end msg) = inl json →
  let w1 := (deliver (Message ws msg b) w).1 in
  peer_prop w1 !! ws = Some (bind_peer ws w).1
  ∧ ∀ code cmsg,
      disconnectPeer_calls (effects (deliver (Close ws code cmsg) w1).2)
      = [(bind_peer ws w).1].
Proof.
  intros Hp. cbv zeta.
  assert (peer_prop (deliver (Message ws msg b) w).1 !! ws
          = Some (bind_peer ws w).1) as Hb1.
  { rewrite deliver_handle. cbn [fst].
    destruct (handle (Message ws msg b) w) as [[r w1] out] eqn:Hh.
    cbn [handle] in Hh. apply message_effects in Hh. rewrite Hp in Hh.
    destruct Hh as (_ & _ & Hh). cbn [fst snd]. unfold bind_peer.
    destruct (peer_prop w !! ws) as [p|] eqn:Hb; destruct Hh as (-> & _).
    - exact Hb.
    - apply lookup_insert_eq. }
  split; [exact Hb1|]. intros code cmsg. rewrite deliver_handle.
  cbn [snd effects].
  destruct (handle (Close ws code cmsg) _) as [[r w2] out] eqn:Hh.
  cbn [handle] in Hh. apply close_effects in Hh. cbn [snd].
  destruct Hh as (_ & _ & _ & _ & ->). rewrite Hb1. reflexivity.
Qed.

Lemma closed_after_failure ws t w :
  closed (after_failure ws t w) = [] ∨ closed (after_failure ws t w) = [ws].
Proof.
  unfold after_failure. destruct t as [e|]; [|left; reflexivity].
  destruct (instanceof_TrackerError e); [|left; reflexivity].
  right. rewrite closed_app, closed_harmless by apply logs_harmless.
  reflexivity.
Qed.

(** X19. What a handler may do besides logging depends on its event: the
    open and drain handlers close no connection and call the registry not
    at all; the message handler never calls [disconnectPeer] and closes
    nothing or its own connection, once; the close handler closes nothing,
    never calls [processMessage] and calls [disconnectPeer] at most once. *)
Theorem handlers_keep_to_their_event ev w :
  let out := effects (deliver ev w).2 in
  match ev with
  | Message ws _ _ =>
      disconnectPeer_calls out = [] ∧ (closed out = [] ∨ closed out = [ws])
  | Close _ _ _ =>
      closed out = [] ∧ processMessage_calls out = []
      ∧ (length (disconnectPeer_calls out) ≤ 1)%nat
  | _ =>
      closed out = [] ∧ processMessage_calls out = []
      ∧ disconnectPeer_calls out = []
  end.
Proof.
  cbv zeta. rewrite deliver_handle. cbn [snd effects].
  destruct ev as [ws url|ws msg b|ws n|ws code msg]; cbn [handle].
  - rewrite open_spec. cbn [snd].
    rewrite closed_harmless, processMessage_calls_harmless,
      disconnectPeer_calls_harmless by apply logs_harmless.
    repeat split.
  - destruct (JSON_parse (decoder_end msg)) as [json|e] eqn:Hp.
    + destruct (message_decoded ws msg b w json Hp)
        as (h & pre & out & -> & _ & Hpre & Hout).
      cbn [snd]. split.
      * change (call_processMessage json (bind_peer ws w).1 :: out
                ++ ?x) with
          ([call_processMessage json (bind_peer ws w).1] ++ out ++ x).
        rewrite !disconnectPeer_calls_app.
        rewrite (disconnectPeer_calls_harmless pre) by exact Hpre.
        rewrite (disconnectPeer_calls_harmless out) by exact Hout.
        destruct (after_failure_projections ws
                    (throws (processMessage (tracker (bind_peer ws w).2)
                               (heap (bind_peer ws w).2) json
                               (bind_peer ws w).1)) w) as (_ & _ & ->).
        destruct (peer_prop w !! ws); reflexivity.
      * change (call_processMessage json (bind_peer ws w).1 :: out
                ++ ?x) with
          ([call_processMessage json (bind_peer ws w).1] ++ out ++ x).
        rewrite !closed_app. rewrite (closed_harmless pre) by exact Hpre.
        rewrite (closed_harmless out) by exact Hout.
        assert (closed (match peer_prop w !! ws with
                        | Some _ => []
                        | None => [new_PeerContext ws (bind_peer ws w).1]
                        end) = []) as ->
          by (destruct (peer_prop w !! ws); reflexivity).
        exact (closed_after_failure ws _ w).
    + rewrite (message_undecodable ws msg b w e Hp). cbn [snd].
      rewrite !disconnectPeer_calls_app, !closed_app.
      rewrite !closed_harmless, !disconnectPeer_calls_harmless
        by apply logs_harmless.
      split; [reflexivity|right; reflexivity].
  - rewrite drain_spec. cbn [snd].
    rewrite closed_harmless, processMessage_calls_harmless,
      disconnectPeer_calls_harmless by apply logs_harmless.
    repeat split.
  - pose proof (close_spec ws code msg w) as Hc. cbv zeta in Hc.
    destruct (peer_prop w !! ws) as [p|].
    + destruct Hc as (h & out & -> & _ & Hout). cbn [snd].
      match goal with
      | |- context [call_disconnectPeer p :: ?x] => set (rest := x)
      end.
      assert (forallb harmless rest = true) as Hall.
      { subst rest. rewrite forallb_app, Hout.
        destruct (throws _); [reflexivity|]. apply logs_harmless. }
      change (call_disconnectPeer p :: rest)
        with ([call_disconnectPeer p] ++ rest).
      rewrite closed_app, processMessage_calls_app, disconnectPeer_calls_app.
      rewrite (closed_harmless rest), (processMessage_calls_harmless rest),
        (disconnectPeer_calls_harmless rest) by exact Hall.
      repeat split. cbn. lia.
    + rewrite Hc. cbn [snd].
      rewrite closed_harmless, processMessage_calls_harmless,
        disconnectPeer_calls_harmless by apply logs_harmless.
      repeat split. cbn. lia.
Qed.
End Gateway.

(** ** Settings *)

Lemma keys_ordered_NoDup ks : keys_ordered ks = true → NoDup ks.
Proof.
  induction ks as [|k ks IH]; [constructor|].
  cbn [keys_ordered]. intros [Hk Hks]%andb_prop. constructor; [|auto].
  intros Hin. destruct (array_index k) as [n|] eqn:Hn.
  - rewrite forallb_forall in Hk. apply list_elem_of_In in Hin.
    specialize (Hk _ Hin). rewrite Hn in Hk. apply N.ltb_lt in Hk. lia.
  - rewrite forallb_forall in Hk. apply list_elem_of_In in Hin.
    specialize (Hk _ Hin). rewrite Hn, String.eqb_refl in Hk. discriminate.
Qed.

Lemma prop_lookup_None k o : k ∉ o.*1 → prop_lookup k o = None.
Proof.
  induction o as [|[k' v] o IH]; [reflexivity|]. simpl.
  intros Hn. destruct (String.eqb_spec k k') as [->|Hne].
  - exfalso. apply Hn. left.
  - apply IH. intros Hin. apply Hn. right. assumption.
Qed.

Ltac string_cases :=
  repeat match goal with
         | |- context [String.eqb ?a ?b] =>
             destruct (String.eqb_spec a b); subst
         end;
  simpl; try congruence.

Lemma prop_lookup_replace k v o k' :
  prop_lookup k' (prop_replace k v o)
  = if String.eqb k' k
    then match prop_lookup k o with Some _ => Some v | None => None end
    else prop_lookup k' o.
Proof.
  induction o as [|[k0 v0] o IH]; simpl.
  - destruct (String.eqb k' k); reflexivity.
  - destruct (String.eqb_spec k k0) as [->|Hne]; simpl.
    + string_cases.
    + rewrite IH. string_cases.
Qed.

Lemma prop_lookup_insert_index n k v o k' :
  prop_lookup k o = None →
  prop_lookup k' (insert_index n k v o)
  = if String.eqb k' k then Some v else prop_lookup k' o.
Proof.
  induction o as [|[k0 v0] o IH]; simpl.
  - destruct (String.eqb k' k); reflexivity.
  - destruct (String.eqb_spec k k0) as [->|Hne]; [discriminate|]. intros Hk.
    destruct (array_index k0) as [m|]; [destruct (m <? n)%N|]; simpl;
      rewrite ?IH by assumption; string_cases.
Qed.

Lemma prop_lookup_app k o1 o2 :
  prop_lookup k (o1 ++ o2)
  = match prop_lookup k o1 with Some v => Some v | None => prop_lookup k o2 end.
Proof.
  induction o1 as [|[k0 v0] o1 IH]; simpl; [reflexivity|].
  destruct (String.eqb k k0); [reflexivity|apply IH].
Qed.

(** Reading a property after [prop_set]. *)
Lemma prop_lookup_set k v o k' :
  prop_lookup k' (prop_set k v o)
  = if String.eqb k' k then Some v else prop_lookup k' o.
Proof.
  unfold prop_set. destruct (prop_lookup k o) as [x|] eqn:Hx.
  - rewrite prop_lookup_replace, Hx. reflexivity.
  - destruct (array_index k) as [n|].
    + rewrite prop_lookup_insert_index by assumption. reflexivity.
    + rewrite prop_lookup_app. simpl.
      destruct (String.eqb_spec k' k) as [->|Hne]; [rewrite Hx; reflexivity|].
      destruct (prop_lookup k' o); reflexivity.
Qed.

(** Reading a property of an object literal with a spread. *)
Lemma prop_lookup_spread k src fields :
  NoDup src.*1 →
  prop_lookup k (fold_left (λ o kv, prop_set kv.1 kv.2 o) src fields)
  = match prop_lookup k src with
    | Some v => Some v
    | None => prop_lookup k fields
    end.
Proof.
  revert fields. induction src as [|[k1 v1] src IH]; intros fields Hnd.
  - reflexivity.
  - apply NoDup_cons in Hnd as [Hk1 Hnd]. simpl.
    rewrite (IH _ Hnd), prop_lookup_set.
    destruct (String.eqb_spec k k1) as [->|Hne]; [|reflexivity].
    rewrite prop_lookup_None by assumption. reflexivity.
Qed.

Lemma indexed_keys_NoDup l : NoDup (indexed l).*1.
Proof.
  unfold indexed. rewrite fmap_imap.
  apply NoDup_alt. intros i j k Hi Hj.
  rewrite list_lookup_imap in Hi, Hj.
  destruct (l !! i), (l !! j); simpl in *; try discriminate.
  injection Hi as <-. injection Hj as Hj.
  apply (inj pretty) in Hj. lia.
Qed.

Lemma own_props_NoDup v : js_wf v = true → NoDup (own_props v).*1.
Proof.
  destruct v; simpl; try (intros _; constructor);
    try (intros _; apply indexed_keys_NoDup).
  intros [Hk _]%andb_prop. apply keys_ordered_NoDup in Hk. exact Hk.
Qed.

Lemma prop_lookup_wf k o v :
  forallb (λ '(_, x), js_wf x) o = true → prop_lookup k o = Some v →
  js_wf v = true.
Proof.
  induction o as [|[k0 v0] o IH]; simpl; [discriminate|].
  intros [H0 Ho]%andb_prop. destruct (String.eqb k k0); [congruence|auto].
Qed.

Lemma js_get_wf k v : js_wf v = true → js_wf (js_get k v) = true.
Proof.
  destruct v; simpl; try reflexivity.
  intros [_ Ho]%andb_prop. destruct (prop_lookup k props) as [x|] eqn:Hx;
    [apply (prop_lookup_wf _ _ _ Ho Hx)|reflexivity].
Qed.

Lemma falsy_no_props v : truthy v = false → own_props v = [].
Proof.
  destruct v; simpl; try reflexivity; try discriminate.
  destruct s; [reflexivity|discriminate].
Qed.

(** The guard [(settings && settings.k) ? settings.k : {}] passes exactly the
    own properties of [settings.k] on to the spread. *)
Lemma section_or_empty_props k arg :
  own_props (section_or_empty k (default_param arg)) = own_props (js_get k arg).
Proof.
  unfold section_or_empty, default_param.
  destruct (is_undefined arg) eqn:Hu; [destruct arg; try discriminate; reflexivity|].
  destruct (truthy arg) eqn:Ht.
  - destruct (truthy (js_get k arg)) eqn:Hg; [reflexivity|].
    rewrite (falsy_no_props (js_get k arg)) by assumption. reflexivity.
  - rewrite Ht. destruct arg; try discriminate; reflexivity.
Qed.

(** C7. With no argument the settings are the defaults, server
    [{port: 8000, host: "0.0.0.0"}] and websockets [{path: "/",
    maxPayloadLength: 65536, idleTimeout: 240, compression: 1, logLevel: 0}];
    and for every argument, in each of the two sections every field the
    caller provides has the caller's value and every other field has its
    default, so that a provided field overrides that field only. *)
Theorem C7_settings_merge arg k :
  js_wf arg = true →
  let effective sec := own_props (js_get sec (settings (constructor arg))) in
  let provided sec := own_props (js_get sec arg) in
  settings (constructor JUndefined)
  = JObj [("server", JObj [("port", JNum 8000); ("host", JStr "0.0.0.0")]);
          ("websockets",
            JObj [("path", JStr "/"); ("maxPayloadLength", JNum 65536);
                  ("idleTimeout", JNum 240); ("compression", JNum 1);
                  ("logLevel", JNum 0)])]
  ∧ prop_lookup k (effective "server")
    = match prop_lookup k (provided "server") with
      | Some v => Some v
      | None => prop_lookup k default_server
      end
  ∧ prop_lookup k (effective "websockets")
    = match prop_lookup k (provided "websockets") with
      | Some v => Some v
      | None => prop_lookup k default_websockets
      end
  ∧ logLevel (constructor arg)
    = default JUndefined (prop_lookup "logLevel" (effective "websockets")).
Proof.
  intros Hwf. cbv zeta. split; [reflexivity|].
  unfold constructor, merge_settings, spread_over. cbn [settings js_get].
  cbn [prop_lookup String.eqb Ascii.eqb Bool.eqb from_option id own_props
       logLevel].
  rewrite !section_or_empty_props.
  rewrite !prop_lookup_spread by (apply own_props_NoDup, js_get_wf, Hwf).
  repeat split. unfold js_get at 1.
  rewrite prop_lookup_spread by (apply own_props_NoDup, js_get_wf, Hwf).
  reflexivity.
Qed.

(** ** Starting *)

Lemma listen_callback_settled g token p :
  p ≠ Pending → listen_callback g token p = Some p.
Proof.
  intros Hp. unfold listen_callback, resolve, reject.
  destruct (truthy token); [destruct p; congruence|].
  destruct (failure_message g); destruct p; congruence.
Qed.

Lemma run_settled g tokens p :
  p ≠ Pending →
  fold_left (λ p token,
               match p with
               | Some p => listen_callback g token p
               | None => None
               end) tokens (Some p) = Some p.
Proof.
  intros Hp. induction tokens as [|t l IH]; [reflexivity|].
  cbn [fold_left]. rewrite listen_callback_settled by exact Hp. exact IH.
Qed.

Lemma run_first g token rest p :
  listen_callback g token Pending = Some p → p ≠ Pending →
  run g (token :: rest) = Some p.
Proof.
  intros H Hp. unfold run. cbn [fold_left]. rewrite H.
  apply run_settled, Hp.
Qed.

(** A truthy token fulfils the promise whatever the settings are: the
    message is not built. *)
Lemma run_fulfils g token rest :
  truthy token = true → run g (token :: rest) = Some Fulfilled.
Proof.
  intros Ht. apply run_first; [|discriminate].
  unfold listen_callback. rewrite Ht. reflexivity.
Qed.


(** ** More about construction and starting *)

Lemma effective_server arg k :
  js_wf arg = true →
  js_get k (js_get "server" (settings (constructor arg)))
  = default JUndefined
      match prop_lookup k (own_props (js_get "server" arg)) with
      | Some v => Some v
      | None => prop_lookup k default_server
      end.
Proof.
  intros Hwf. unfold constructor, merge_settings, spread_over.
  cbn [settings js_get].
  cbn [prop_lookup String.eqb Ascii.eqb Bool.eqb from_option id].
  rewrite section_or_empty_props. unfold js_get at 1.
  rewrite prop_lookup_spread by (apply own_props_NoDup, js_get_wf, Hwf).
  reflexivity.
Qed.

Lemma effective_logLevel arg :
  js_wf arg = true →
  logLevel (constructor arg)
  = default (JNum 0)
      (prop_lookup "logLevel" (own_props (js_get "websockets" arg))).
Proof.
  intros Hwf. unfold constructor, merge_settings, spread_over.
  cbn [logLevel js_get].
  cbn [prop_lookup String.eqb Ascii.eqb Bool.eqb from_option id].
  rewrite section_or_empty_props. unfold js_get at 1.
  rewrite prop_lookup_spread by (apply own_props_NoDup, js_get_wf, Hwf).
  destruct (prop_lookup "logLevel" _); reflexivity.
Qed.

Lemma effective_websockets arg k :
  js_wf arg = true →
  js_get k (js_get "websockets" (settings (constructor arg)))
  = default JUndefined
      match prop_lookup k (own_props (js_get "websockets" arg)) with
      | Some v => Some v
      | None => prop_lookup k default_websockets
      end.
Proof.
  intros Hwf. unfold constructor, merge_settings, spread_over.
  cbn [settings js_get].
  cbn [prop_lookup String.eqb Ascii.eqb Bool.eqb from_option id].
  rewrite section_or_empty_props. unfold js_get at 1.
  rewrite prop_lookup_spread by (apply own_props_NoDup, js_get_wf, Hwf).
  reflexivity.
Qed.

(** X14. The gateway is built on the TLS application exactly when the
    caller provides [server.key_file_name] with a value other than
    [undefined]; a caller who provides no settings, no server section or no
    such field gets the plain application. *)
Theorem tls_when_key_file_name_is_given arg :
  js_wf arg = true →
  app_ (constructor arg)
  = match prop_lookup "key_file_name" (own_props (js_get "server" arg)) with
    | Some v => if is_undefined v then App else SSLApp
    | None => App
    end.
Proof.
  intros Hwf. pose proof (effective_server arg "key_file_name" Hwf) as H.
  unfold constructor in *. cbn [app_ settings] in *. rewrite H.
  destruct (prop_lookup "key_file_name" _); reflexivity.
Qed.

(** X15. When the transport reports that listening failed, the promise of
    [run] on a constructed gateway is rejected with the host and port in
    effect, whenever these have a text: those the caller provided, and
    ["0.0.0.0"] and [8000] where the caller provided none. *)
Theorem run_rejects_with_the_effective_address arg token rest host port :
  js_wf arg = true →
  truthy token = false →
  let provided k := prop_lookup k (own_props (js_get "server" arg)) in
  js_to_string (default (JStr "0.0.0.0") (provided "host")) = Text host →
  js_to_string (default (JNum 8000) (provided "port")) = Text port →
  run (constructor arg) (token :: rest)
  = Some (Rejected (OtherError "Error"
            ("failed to listen to " +:+ host +:+ ":" +:+ port))).
Proof.
  intros Hwf Ht. cbv zeta. intros Hh Hp. apply run_first; [|discriminate].
  unfold listen_callback, failure_message.
  rewrite Ht, !effective_server by exact Hwf.
  assert (∀ k d, default JUndefined
                   match prop_lookup k (own_props (js_get "server" arg)) with
                   | Some v => Some v
                   | None => Some d
                   end
                 = default d (prop_lookup k (own_props (js_get "server" arg))))
    as Hd by (intros k d; destruct (prop_lookup k _); reflexivity).
  cbn [prop_lookup default_server String.eqb Ascii.eqb Bool.eqb].
  rewrite !Hd, Hh, Hp. reflexivity.
Qed.

(** X16. A gateway constructed with a log level (the caller's, or the
    default 0) that is neither the number 1 nor the number 2 writes nothing
    to the console, whatever the events; so a gateway constructed without a
    log level is silent. *)
Theorem silent_by_default (T : Type) processMessage disconnectPeer
    decoder_end JSON_parse JSON_stringify (registry : T) arg evs :
  js_wf arg = true →
  let l := default (JNum 0)
             (prop_lookup "logLevel" (own_props (js_get "websockets" arg))) in
  strict_eq_num l 1 = false →
  strict_eq_num l 2 = false →
  let out := all_effects
               (deliver_all T processMessage disconnectPeer decoder_end
                  JSON_parse JSON_stringify evs
                  (initial_world T registry arg)).2 in
  quiet out = out.
Proof.
  intros Hwf l H1 H2 out. subst out.
  eapply allowed_quiet; [| |apply console_related].
  - cbn [this initial_world]. rewrite effective_logLevel by exact Hwf. exact H1.
  - cbn [this initial_world]. rewrite effective_logLevel by exact Hwf. exact H2.
Qed.

(** X17. The handlers are registered under the pattern and with the
    compression, payload limit and idle timeout in effect: the caller's
    where provided, and ["/"], 1, 65536 and 240 where not. *)
Theorem route_has_the_effective_settings arg :
  js_wf arg = true →
  let provided k := prop_lookup k (own_props (js_get "websockets" arg)) in
  buildApplication (constructor arg)
  = {| pattern := default (JStr "/") (provided "path");
       compression := default (JNum 1) (provided "compression");
       maxPayloadLength := default (JNum 65536) (provided "maxPayloadLength");
       idleTimeout := default (JNum 240) (provided "idleTimeout") |}.
Proof.
  intros Hwf. cbv zeta. unfold buildApplication.
  rewrite !effective_websockets by exact Hwf.
  destruct (prop_lookup "path" _), (prop_lookup "compression" _),
    (prop_lookup "maxPayloadLength" _), (prop_lookup "idleTimeout" _);
    reflexivity.
Qed.

(** ** The codec round trip *)

Module JSON_facts.
Import JSON.

Ltac ascii_cases c :=
  destruct c as [[] [] [] [] [] [] [] []]; try discriminate; try reflexivity.

Lemma delimited_not_digit rest :
  delimited rest = true →
  match rest with String c _ => is_digit c = false | EmptyString => True end.
Proof. destruct rest as [|c rest]; [trivial|]. simpl. ascii_cases c. Qed.

Lemma delimited_not_continues rest :
  delimited rest = true → continues_number rest = false.
Proof. destruct rest as [|c rest]; [trivial|]. simpl. ascii_cases c. Qed.

Lemma delimited_skip_ws rest : delimited rest = true → skip_ws rest = rest.
Proof. destruct rest as [|c rest]; [trivial|]. simpl. ascii_cases c. Qed.

Lemma span_digits_uint d rest :
  match rest with String c _ => is_digit c = false | EmptyString => True end →
  span_digits (NilEmpty.string_of_uint d +:+ rest)
  = (NilEmpty.string_of_uint d, rest).
Proof.
  intros Hrest. induction d; simpl; rewrite ?IHd; try reflexivity.
  destruct rest as [|c rest]; [reflexivity|]. simpl. rewrite Hrest. reflexivity.
Qed.

Lemma to_uint_normal n : Decimal.unorm (N.to_uint n) = N.to_uint n.
Proof.
  rewrite <- (DecimalN.Unsigned.of_to n) at 2.
  symmetry. apply DecimalN.Unsigned.to_of.
Qed.

Lemma N_to_string_head n :
  ∃ c r, N_to_string n = String c r ∧ is_digit c = true.
Proof.
  unfold N_to_string.
  assert (H : N.to_uint n ≠ Decimal.Nil).
  { rewrite <- to_uint_normal. apply DecimalFacts.unorm_nonnil. }
  destruct (N.to_uint n); [contradiction|..]; simpl; eauto.
Qed.

Lemma parse_nat_to_string n rest :
  (n <= max_safe_integer)%N → delimited rest = true →
  parse_nat (N_to_string n +:+ rest) = Ok (n, rest).
Proof.
  intros Hn Hrest. unfold parse_nat, N_to_string.
  rewrite span_digits_uint by (apply delimited_not_digit, Hrest).
  destruct (N_to_string_head n) as (c & r & Hs & _). unfold N_to_string in Hs.
  rewrite Hs. cbn iota. rewrite <- Hs, NilEmpty.usu, to_uint_normal.
  rewrite (Decimal.internal_uint_dec_lb _ _ eq_refl).
  rewrite (delimited_not_continues _ Hrest), DecimalN.Unsigned.of_to.
  apply N.leb_le in Hn. rewrite Hn. reflexivity.
Qed.

Lemma Z_to_string_head z :
  ∃ c r, Z_to_string z = String c r
         ∧ (Ascii.eqb c "-" || is_digit c) = true.
Proof.
  unfold Z_to_string. destruct (z <? 0).
  - eexists _, _. split; reflexivity.
  - destruct (N_to_string_head (Z.to_N z)) as (c & r & -> & Hc).
    exists c, r. rewrite Hc. split; [reflexivity|apply orb_true_r].
Qed.

Lemma parse_number_to_string z rest :
  Z.abs z <= Z.of_N max_safe_integer → delimited rest = true →
  parse_number (Z_to_string z +:+ rest) = Ok (z, rest).
Proof.
  intros Hz Hrest. unfold parse_number, Z_to_string.
  destruct (z <? 0) eqn:Hneg.
  - apply Z.ltb_lt in Hneg. simpl.
    rewrite parse_nat_to_string by (assumption || lia). simpl.
    destruct (N.eqb_spec (Z.abs_N z) 0); [lia|].
    f_equal. f_equal. lia.
  - apply Z.ltb_ge in Hneg.
    destruct (N_to_string_head (Z.to_N z)) as (c & r & Hs & Hc).
    rewrite Hs. simpl.
    assert (Ascii.eqb c "-" = false) as -> by (clear Hs; ascii_cases c).
    change (String c (r +:+ rest)) with (String c r +:+ rest).
    rewrite <- Hs, parse_nat_to_string by (assumption || lia). simpl.
    f_equal. f_equal. lia.
Qed.

Lemma append_cons x (a b : string) : String x a +:+ b = String x (a +:+ b).
Proof. reflexivity. Qed.

Lemma append_assoc (a b c : string) : (a +:+ b) +:+ c = a +:+ (b +:+ c).
Proof.
  induction a as [|x a IH]; [reflexivity|].
  rewrite !append_cons, IH. reflexivity.
Qed.

Lemma append_nil_r (a : string) : a +:+ "" = a.
Proof.
  induction a as [|x a IH]; [reflexivity|]. rewrite append_cons, IH. reflexivity.
Qed.

Lemma length_append (a b : string) :
  String.length (a +:+ b) = (String.length a + String.length b)%nat.
Proof.
  induction a as [|x a IH]; [reflexivity|].
  rewrite append_cons. simpl. rewrite IH. reflexivity.
Qed.

(** One escaped character is read back as that character. *)
Lemma parse_chars_escape_char c tail :
  parse_chars (escape_char c +:+ tail) = prepend c (parse_chars tail).
Proof. ascii_cases c. Qed.

Lemma parse_chars_escape s rest :
  parse_chars (escape s +:+ String dquote rest) = Ok (s, rest).
Proof.
  induction s as [|c s IH]; [reflexivity|].
  cbn [escape]. rewrite append_assoc, parse_chars_escape_char, IH.
  reflexivity.
Qed.

Lemma parse_chars_quote s rest :
  ∃ body, quote s +:+ rest = String dquote body
          ∧ parse_chars body = Ok (s, rest).
Proof.
  exists (escape s +:+ String dquote rest). split.
  - unfold quote. rewrite append_cons, append_assoc. reflexivity.
  - apply parse_chars_escape.
Qed.

Lemma value_start_facts c :
  value_start c = true →
  is_ws c = false ∧ Ascii.eqb c "]" = false ∧ Ascii.eqb c "}" = false.
Proof. ascii_cases c; repeat split. Qed.

Lemma number_start_facts c :
  (Ascii.eqb c "-" || is_digit c) = true →
  is_ws c = false ∧ Ascii.eqb c "{" = false ∧ Ascii.eqb c "[" = false
  ∧ Ascii.eqb c dquote = false ∧ Ascii.eqb c "t" = false
  ∧ Ascii.eqb c "f" = false ∧ Ascii.eqb c "n" = false
  ∧ value_start c = true.
Proof. ascii_cases c; repeat split. Qed.

(** The text of a value starts with a character that starts a value. *)
Lemma stringify_head v t :
  stringify v = Some t → ∃ c r, t = String c r ∧ value_start c = true.
Proof.
  destruct v as [| |[]|n|s|l|o]; simpl; intros E; try discriminate;
    injection E as <-; try (eexists _, _; split; reflexivity).
  destruct (Z_to_string_head n) as (c & r & -> & Hc).
  exists c, r. split; [reflexivity|]. apply number_start_facts, Hc.
Qed.

Lemma skip_ws_value c r : value_start c = true → skip_ws (String c r) = String c r.
Proof.
  intros H. apply value_start_facts in H as (H & _). simpl. rewrite H. reflexivity.
Qed.

Lemma parse_value_S fuel s :
  parse_value (S fuel) s =
    match skip_ws s with
    | EmptyString => SyntaxError
    | String c r as s1 =>
        if Ascii.eqb c "{" then
          match skip_ws r with
          | String c' r' as r1 =>
              if Ascii.eqb c' "}" then Ok (JObj [], r')
              else parse_members fuel r1 []
          | EmptyString => SyntaxError
          end
        else if Ascii.eqb c "[" then
          match skip_ws r with
          | String c' r' as r1 =>
              if Ascii.eqb c' "]" then Ok (JArr [], r')
              else parse_elements fuel r1 []
          | EmptyString => SyntaxError
          end
        else if Ascii.eqb c dquote then
          and_then (parse_chars r) (λ '(str, rest), Ok (JStr str, rest))
        else if Ascii.eqb c "t" then literal "true" (JBool true) s1
        else if Ascii.eqb c "f" then literal "false" (JBool false) s1
        else if Ascii.eqb c "n" then literal "null" JNull s1
        else and_then (parse_number s1) (λ '(n, rest), Ok (JNum n, rest))
    end.
Proof. reflexivity. Qed.

Lemma parse_elements_S fuel s acc :
  parse_elements (S fuel) s acc =
    and_then (parse_value fuel s) (λ '(v, r),
      match skip_ws r with
      | String c r' =>
          if Ascii.eqb c "," then parse_elements fuel r' (acc ++ [v])
          else if Ascii.eqb c "]" then Ok (JArr (acc ++ [v]), r')
          else SyntaxError
      | EmptyString => SyntaxError
      end).
Proof. reflexivity. Qed.

Lemma parse_members_S fuel s acc :
  parse_members (S fuel) s acc =
    match skip_ws s with
    | String c r =>
        if Ascii.eqb c dquote then
          and_then (parse_chars r) (λ '(k, r1),
            match skip_ws r1 with
            | String c1 r2 =>
                if Ascii.eqb c1 ":" then
                  and_then (parse_value fuel r2) (λ '(v, r3),
                    match skip_ws r3 with
                    | String c3 r4 =>
                        if Ascii.eqb c3 "," then
                          parse_members fuel r4 (prop_set k v acc)
                        else if Ascii.eqb c3 "}" then
                          Ok (JObj (prop_set k v acc), r4)
                        else SyntaxError
                    | EmptyString => SyntaxError
                    end)
                else SyntaxError
            | EmptyString => SyntaxError
            end)
        else SyntaxError
    | EmptyString => SyntaxError
    end.
Proof. reflexivity. Qed.

Lemma list_sum_cons a l : list_sum (a :: l) = (a + list_sum l)%nat.
Proof. reflexivity. Qed.

Lemma concat_cons sep a b l :
  String.concat sep (a :: b :: l) = a +:+ sep +:+ String.concat sep (b :: l).
Proof. reflexivity. Qed.

Lemma parse_elements_roundtrip l : ∀ x acc fuel rest,
  Forall roundtrips (x :: l) →
  forallb json_data (x :: l) = true →
  (list_sum (map (λ x, S (weight x)) (x :: l)) ≤ fuel)%nat →
  delimited rest = true →
  parse_elements fuel
    (String.concat "," (map element_text (x :: l)) +:+ String "]" rest) acc
  = Ok (JArr (acc ++ x :: l), rest).
Proof.
  induction l as [|y l IH]; intros x acc fuel rest HP Hd Hf Hrest.
  - apply Forall_cons in HP as [Hx _]. cbn [forallb map] in Hd, Hf.
    rewrite list_sum_cons in Hf.
    apply andb_prop in Hd as [Hdx _].
    destruct fuel as [|fuel]; [lia|]. rewrite parse_elements_S.
    destruct (Hx Hdx fuel (String "]" rest)) as (t & Ht & Hp);
      [lia|reflexivity|].
    cbn [map String.concat]. unfold element_text. rewrite Ht. cbn [default from_option id].
    rewrite Hp. reflexivity.
  - apply Forall_cons in HP as [Hx HP]. cbn [forallb] in Hd.
    apply andb_prop in Hd as [Hdx Hd]. cbn [map] in Hf.
    rewrite list_sum_cons in Hf.
    destruct fuel as [|fuel]; [lia|]. rewrite parse_elements_S.
    cbn [map]. rewrite concat_cons, !append_assoc.
    destruct (Hx Hdx fuel
      ("," +:+ String.concat "," (element_text y :: map element_text l)
           +:+ String "]" rest)) as (t & Ht & Hp); [lia|reflexivity|].
    unfold element_text at 1. rewrite Ht. cbn [default from_option id].
    rewrite Hp. cbn [and_then]. rewrite append_cons. cbn [skip_ws is_ws].
    change (is_ws ",") with false. cbn iota.
    change (Ascii.eqb "," ",") with true. cbn iota.
    change ("" +:+ ?s) with s.
    change (element_text y :: map element_text l) with (map element_text (y :: l)).
    rewrite (IH y (acc ++ [x]) fuel rest HP Hd) by (first [assumption | cbn [map]; lia]).
    rewrite <- app_assoc. reflexivity.
Qed.

Lemma insert_index_append acc k x more n :
  array_index k = Some n →
  keys_ordered (map fst (acc ++ (k, x) :: more)) = true →
  insert_index n k x acc = acc ++ [(k, x)].
Proof.
  intros Hk. induction acc as [|[k0 v0] acc IH]; [reflexivity|].
  cbn [app map fst keys_ordered insert_index].
  intros [H0 Hrest]%andb_prop.
  assert (Hin : In k (map fst (acc ++ (k, x) :: more))).
  { rewrite map_app. apply in_or_app. right. left. reflexivity. }
  destruct (array_index k0) as [m|].
  - rewrite forallb_forall in H0. specialize (H0 _ Hin). rewrite Hk in H0.
    rewrite H0, (IH Hrest). reflexivity.
  - rewrite forallb_forall in H0. specialize (H0 _ Hin). rewrite Hk in H0.
    discriminate.
Qed.

(** Defining the next property of an object in property order appends it. *)
Lemma prop_set_append acc k x more :
  keys_ordered (map fst (acc ++ (k, x) :: more)) = true →
  prop_set k x acc = acc ++ [(k, x)].
Proof.
  intros Hord. unfold prop_set.
  assert (Hnone : prop_lookup k acc = None).
  { apply prop_lookup_None. apply keys_ordered_NoDup in Hord.
    rewrite map_app in Hord. apply NoDup_app in Hord as (_ & Hd & _).
    intros Hin. apply (Hd k Hin). left. }
  rewrite Hnone. destruct (array_index k) as [n|] eqn:Hk; [|reflexivity].
  apply (insert_index_append _ _ _ more), Hord. exact Hk.
Qed.

Lemma parse_members_roundtrip o : ∀ k x acc fuel rest,
  Forall (λ kv, roundtrips kv.2) ((k, x) :: o) →
  forallb (λ '(_, x), json_data x) ((k, x) :: o) = true →
  keys_ordered (map fst (acc ++ (k, x) :: o)) = true →
  (list_sum (map (λ '(_, x), S (weight x)) ((k, x) :: o)) ≤ fuel)%nat →
  delimited rest = true →
  parse_members fuel
    (String.concat "," (omap member_text ((k, x) :: o)) +:+ String "}" rest) acc
  = Ok (JObj (acc ++ (k, x) :: o), rest).
Proof.
  induction o as [|[k' y] o IH]; intros k x acc fuel rest HP Hd Hord Hf Hrest.
  - apply Forall_cons in HP as [Hx _]. cbn [snd] in Hx.
    cbn [forallb map] in Hd, Hf.
    rewrite list_sum_cons in Hf.
    apply andb_prop in Hd as [Hdx _].
    destruct fuel as [|fuel]; [lia|]. rewrite parse_members_S.
    destruct (Hx Hdx fuel (String "}" rest)) as (t & Ht & Hp);
      [lia|reflexivity|].
    cbn [omap list_omap member_text String.concat]. cbn [snd] in Ht. rewrite Ht.
    cbn [String.concat].
    rewrite !append_assoc.
    destruct (parse_chars_quote k (":" +:+ t +:+ String "}" rest))
      as (body & -> & Hbody).
    cbn [skip_ws]. change (is_ws dquote) with false. cbn iota.
    change (Ascii.eqb dquote dquote) with true. cbn iota.
    rewrite Hbody. cbn [and_then].
    rewrite append_cons. cbn [skip_ws]. change (is_ws ":") with false. cbn iota.
    change (Ascii.eqb ":" ":") with true. cbn iota.
    change ("" +:+ ?s) with s. rewrite Hp. cbn [and_then skip_ws].
    change (is_ws "}") with false. cbn iota.
    change (Ascii.eqb "}" ",") with false. change (Ascii.eqb "}" "}") with true.
    cbn iota. rewrite (prop_set_append _ _ _ [] Hord). reflexivity.
  - apply Forall_cons in HP as [Hx HP]. cbn [snd] in Hx.
    cbn [forallb] in Hd. apply andb_prop in Hd as [Hdx Hd].
    cbn [map] in Hf. rewrite list_sum_cons in Hf.
    destruct fuel as [|fuel]; [lia|]. rewrite parse_members_S.
    assert (Hy : ∃ ty, stringify y = Some ty).
    { apply Forall_cons in HP as [Hy _]. cbn [snd] in Hy. cbn [forallb] in Hd.
      apply andb_prop in Hd as [Hdy _].
      destruct (Hy Hdy (weight y) "") as (ty & Hty & _); [lia|reflexivity|].
      exists ty. exact Hty. }
    destruct Hy as (ty & Hty).
    assert (Hnext : omap member_text ((k', y) :: o)
                    = (quote k' +:+ ":" +:+ ty) :: omap member_text o).
    { cbn [omap list_omap member_text]. rewrite Hty. reflexivity. }
    destruct (Hx Hdx fuel
      ("," +:+ String.concat "," (omap member_text ((k', y) :: o))
           +:+ String "}" rest)) as (t & Ht & Hp); [lia|reflexivity|].
    assert (Htext : omap member_text ((k, x) :: (k', y) :: o)
                    = (quote k +:+ ":" +:+ t) :: omap member_text ((k', y) :: o)).
    { cbn [omap list_omap member_text]. rewrite Ht. reflexivity. }
    rewrite Htext, Hnext, concat_cons, <- Hnext, !append_assoc.
    destruct (parse_chars_quote k
      (":" +:+ t +:+ "," +:+ String.concat "," (omap member_text ((k', y) :: o))
           +:+ String "}" rest)) as (body & -> & Hbody).
    cbn [skip_ws]. change (is_ws dquote) with false. cbn iota.
    change (Ascii.eqb dquote dquote) with true. cbn iota.
    rewrite Hbody. cbn [and_then].
    rewrite append_cons. cbn [skip_ws]. change (is_ws ":") with false. cbn iota.
    change (Ascii.eqb ":" ":") with true. cbn iota.
    change ("" +:+ ?s) with s. rewrite Hp. cbn [and_then].
    rewrite append_cons. cbn [skip_ws].
    change (is_ws ",") with false. cbn iota.
    change (Ascii.eqb "," ",") with true. cbn iota.
    change ("" +:+ ?s) with s.
    rewrite (prop_set_append _ _ _ ((k', y) :: o) Hord).
    rewrite (IH k' y (acc ++ [(k, x)]) fuel rest HP Hd);
      [rewrite <- app_assoc; reflexivity|rewrite <- app_assoc; exact Hord
      |cbn [map]; lia|assumption].
Qed.

Lemma concat_head sep c r l :
  String.concat sep (String c r :: l) = String c (String.concat sep (r :: l)).
Proof. destruct l; reflexivity. Qed.

Lemma fuel_positive v fuel : (weight v ≤ fuel)%nat → ∃ f, fuel = S f.
Proof.
  destruct fuel as [|f]; [|eauto]. destruct v; simpl; lia.
Qed.

(** Every value of the codec is read back from its text, whatever follows
    the text, given fuel for its weight. *)
Lemma roundtrip_all v : roundtrips v.
Proof.
  induction v as [| |b|n|s|l IH|o IH] using jsval_ind';
    intros Hd fuel rest Hfuel Hrest;
    destruct (fuel_positive _ _ Hfuel) as [f ->].
  - discriminate.
  - exists "null"%string. split; reflexivity.
  - destruct b; eexists; split; reflexivity.
  - cbn [json_data] in Hd. apply Z.leb_le in Hd.
    exists (Z_to_string n). split; [reflexivity|].
    destruct (Z_to_string_head n) as (c & r & Hs & Hc).
    apply number_start_facts in Hc as (W & E1 & E2 & E3 & E4 & E5 & E6 & _).
    rewrite parse_value_S, Hs, append_cons. cbn [skip_ws].
    rewrite W, E1, E2, E3, E4, E5, E6.
    rewrite <- append_cons, <- Hs, parse_number_to_string by assumption.
    reflexivity.
  - exists (quote s). split; [reflexivity|].
    destruct (parse_chars_quote s rest) as (body & -> & Hbody).
    rewrite parse_value_S. cbn [skip_ws]. change (is_ws dquote) with false.
    cbn iota. change (Ascii.eqb dquote "{") with false.
    change (Ascii.eqb dquote "[") with false.
    change (Ascii.eqb dquote dquote) with true. cbn iota.
    rewrite Hbody. reflexivity.
  - cbn [json_data] in Hd.
    exists ("[" +:+ String.concat "," (map element_text l) +:+ "]").
    split; [reflexivity|].
    destruct l as [|x l]; [reflexivity|].
    rewrite !append_assoc. change ("[" +:+ ?s) with (String "[" s).
    change ("]" +:+ rest) with (String "]" rest).
    rewrite parse_value_S. cbn [skip_ws]. change (is_ws "[") with false.
    cbn iota. change (Ascii.eqb "[" "{") with false.
    change (Ascii.eqb "[" "[") with true. cbn iota.
    assert (Hx : ∃ c r, element_text x = String c r ∧ value_start c = true).
    { pose proof (Forall_inv IH) as Hx. cbn [forallb] in Hd.
      apply andb_prop in Hd as [Hdx _].
      destruct (Hx Hdx (weight x) "") as (t & Ht & _); [lia|reflexivity|].
      unfold element_text. rewrite Ht. apply (stringify_head _ _ Ht). }
    destruct Hx as (c & r & Hx & Hc).
    pose proof (parse_elements_roundtrip l x [] f rest IH Hd) as R.
    cbn [weight] in Hfuel. specialize (R ltac:(lia) Hrest).
    cbn [map] in R |- *. rewrite Hx, concat_head, append_cons in R |- *.
    rewrite skip_ws_value by assumption.
    apply value_start_facts in Hc as (_ & -> & _). exact R.
  - cbn [json_data] in Hd. apply andb_prop in Hd as [Hord Hd].
    exists ("{" +:+ String.concat "," (omap member_text o) +:+ "}").
    split; [reflexivity|].
    destruct o as [|[k x] o]; [reflexivity|].
    rewrite !append_assoc. change ("{" +:+ ?s) with (String "{" s).
    change ("}" +:+ rest) with (String "}" rest).
    rewrite parse_value_S. cbn [skip_ws]. change (is_ws "{") with false.
    cbn iota. change (Ascii.eqb "{" "{") with true. cbn iota.
    assert (Hx : ∃ t, stringify x = Some t).
    { pose proof (Forall_inv IH) as Hx. cbn [snd] in Hx. cbn [forallb] in Hd.
      apply andb_prop in Hd as [Hdx _].
      destruct (Hx Hdx (weight x) "") as (t & Ht & _); [lia|reflexivity|].
      eauto. }
    destruct Hx as (t & Ht).
    pose proof (parse_members_roundtrip o k x [] f rest IH Hd Hord) as R.
    cbn [weight] in Hfuel. specialize (R ltac:(lia) Hrest).
    assert (Htext : omap member_text ((k, x) :: o)
                    = (quote k +:+ ":" +:+ t) :: omap member_text o).
    { cbn [omap list_omap member_text]. rewrite Ht. reflexivity. }
    rewrite Htext in R |- *. unfold quote in R |- *.
    rewrite append_cons, concat_head, append_cons in R |- *.
    cbn [skip_ws]. change (is_ws dquote) with false. cbn iota.
    change (Ascii.eqb dquote "}") with false. cbn iota. exact R.
Qed.

Lemma json_data_stringify v : json_data v = true → ∃ t, stringify v = Some t.
Proof. destruct v as [| |[]| | | |]; simpl; intros H; try discriminate; eauto. Qed.

Lemma length_concat_ge (ws : list nat) (parts : list string) :
  Forall2 (λ w p, (w ≤ String.length p)%nat) ws parts →
  (list_sum (map S ws) ≤ S (String.length (String.concat "," parts)))%nat.
Proof.
  induction 1 as [|w p ws parts Hw Hrest IH]; [simpl; lia|].
  cbn [map]. rewrite list_sum_cons.
  destruct Hrest as [|w' p' ws' parts' Hw' Hrest'].
  - simpl. lia.
  - rewrite concat_cons, !length_append. cbn [map] in IH |- *.
    rewrite !list_sum_cons in IH |- *. simpl String.length at 2. lia.
Qed.

(** The fuel [parse] gives itself is enough for the text of a value. *)
Lemma weight_le_length v :
  json_data v = true → ∀ t, stringify v = Some t →
  (weight v ≤ String.length t)%nat.
Proof.
  induction v as [| |b|n|s|l IH|o IH] using jsval_ind'; intros Hd t Ht.
  - discriminate.
  - injection Ht as <-. simpl. lia.
  - destruct b; injection Ht as <-; simpl; lia.
  - injection Ht as <-. destruct (Z_to_string_head n) as (c & r & -> & _).
    simpl. lia.
  - injection Ht as <-. simpl. lia.
  - cbn [json_data] in Hd.
    change (stringify (JArr l))
      with (Some ("[" +:+ String.concat "," (map element_text l) +:+ "]")) in Ht.
    injection Ht as <-. rewrite !length_append. cbn [weight].
    assert (H2 : Forall2 (λ w p, (w ≤ String.length p)%nat)
                   (map weight l) (map element_text l)).
    { induction l as [|x l IHl]; [constructor|].
      cbn [forallb] in Hd. apply andb_prop in Hd as [Hdx Hd].
      apply Forall_cons in IH as [Hx IH]. constructor; [|apply IHl; assumption].
      destruct (json_data_stringify x Hdx) as (tx & Htx).
      unfold element_text. rewrite Htx. apply (Hx Hdx tx Htx). }
    apply length_concat_ge in H2. rewrite map_map in H2. simpl String.length.
    lia.
  - cbn [json_data] in Hd. apply andb_prop in Hd as [_ Hd].
    change (stringify (JObj o))
      with (Some ("{" +:+ String.concat "," (omap member_text o) +:+ "}")) in Ht.
    injection Ht as <-. rewrite !length_append. cbn [weight].
    assert (H2 : Forall2 (λ w p, (w ≤ String.length p)%nat)
                   (map (λ kv, weight kv.2) o) (omap member_text o)).
    { induction o as [|[k x] o IHo]; [constructor|].
      cbn [forallb] in Hd. apply andb_prop in Hd as [Hdx Hd].
      apply Forall_cons in IH as [Hx IH]. cbn [snd] in Hx.
      destruct (json_data_stringify x Hdx) as (tx & Htx).
      cbn [omap list_omap member_text map]. rewrite Htx.
      constructor; [|apply IHo; assumption].
      rewrite !length_append. specialize (Hx Hdx tx Htx). cbn [snd]. lia. }
    apply length_concat_ge in H2. rewrite map_map in H2. simpl String.length.
    assert (Hsame : map (λ x, S (weight x.2)) o
                    = map (λ '(_, x), S (weight x)) o).
    { apply map_ext. intros [k x]. reflexivity. }
    rewrite Hsame in H2. lia.
Qed.

(** A property whose value is [undefined] is dropped by [stringify]: such
    values are not among those the codec carries. *)
Lemma stringify_drops_undefined k o :
  stringify (JObj ((k, JUndefined) :: o)) = stringify (JObj o).
Proof. reflexivity. Qed.

(** For every value the codec carries (null, booleans, integers within
    the safe range, strings, arrays and objects of such values, the
    properties of an object in property order), [JSON.stringify] produces a
    text and [JSON.parse] of that text is the value itself. *)
Lemma stringify_then_parse v :
  json_data v = true →
  ∃ text, stringify v = Some text ∧ parse text = Ok v.
Proof.
  intros Hd. destruct (json_data_stringify v Hd) as (t & Ht).
  exists t. split; [assumption|]. unfold parse.
  destruct (roundtrip_all v Hd (S (String.length t)) "") as (t' & Ht' & Hp).
  - pose proof (weight_le_length v Hd t Ht). lia.
  - reflexivity.
  - rewrite Ht in Ht'. injection Ht' as <-. rewrite append_nil_r in Hp.
    rewrite Hp. reflexivity.
Qed.

(** The bytes of a text frame decode to the text. *)
Lemma utf8_decode_char c rest :
  utf8_decode (map (λ n, byte_of_ascii (ascii_of_N n)) (utf8_bytes c) ++ rest)
  = match utf8_decode rest with
    | Some s => Some (String c s)
    | None => None
    end.
Proof.
  destruct c as [[] [] [] [] [] [] [] []]; reflexivity.
Qed.

Lemma utf8_decode_encode s : utf8_decode (utf8_encode s) = Some s.
Proof.
  unfold utf8_encode. induction s as [|c s IH]; [reflexivity|].
  cbn [list_ascii_of_string flat_map]. rewrite map_app, utf8_decode_char, IH.
  reflexivity.
Qed.

End JSON_facts.

(** ** The round trip through the gateway *)



(** * Examples: the theorems at concrete inputs *)

Local Abbreviation example_world := (initial_world nat 0%nat JUndefined).

Local Abbreviation example_run :=
  (deliver_all nat example_processMessage example_disconnectPeer
     example_decoder_end example_JSON_parse JSON.stringify).

Local Abbreviation example_deliver :=
  (deliver nat example_processMessage example_disconnectPeer
     example_decoder_end example_JSON_parse JSON.stringify).

Local Abbreviation example_message :=
  (message nat example_processMessage example_decoder_end example_JSON_parse
     JSON.stringify).

(** Two messages on one connection: one identity. *)
Lemma C1_witness :
  no_message_after_close 0%nat example_lifetime = true
  ∧ (length (created 0%nat (all_effects (example_run example_lifetime example_world).2))
     ≤ 1)%nat.
Proof.
  split; [reflexivity|].
  pose proof (C1_one_identity_per_connection nat example_processMessage
                example_disconnectPeer example_decoder_end example_JSON_parse
                JSON.stringify 0%nat example_lifetime example_world eq_refl)
    as H.
  destruct H as (H & _). exact H.
Defined.

(** The close of that connection disconnects the identity made for it. *)
Lemma C2_witness :
  peer_prop example_world !! 0%nat = None
  ∧ forallb (λ e, negb (on 0%nat is_close e)) example_mid = true
  ∧ disconnectPeer_calls
      (effects (example_deliver (Close 0%nat 1000 [])
                  (example_run (Open 0%nat "/" :: example_mid) example_world).1).2)
    = created 0%nat
        (all_effects (example_run (Open 0%nat "/" :: example_mid) example_world).2).
Proof.
  split; [reflexivity|]. split; [reflexivity|].
  pose proof (C2_disconnect_once_with_same_identity nat example_processMessage
                example_disconnectPeer example_decoder_end example_JSON_parse
                JSON.stringify 0%nat "/" example_mid 1000 [] example_world
                eq_refl eq_refl) as H.
  destruct H as (H & _). exact H.
Defined.

(** Over that lifetime the count is never negative. *)
Lemma C3_witness :
  transport_ok ∅ example_lifetime = true
  ∧ ∀ k, 0 ≤ count nat (example_run (take k example_lifetime) example_world).1.
Proof.
  split; [reflexivity|].
  pose proof (C3_connection_count nat example_processMessage
                example_disconnectPeer example_decoder_end example_JSON_parse
                JSON.stringify 0%nat JUndefined example_lifetime) as H.
  destruct H as (_ & H). exact (H eq_refl).
Defined.

(** A rejected message closes the connection and raises nothing. *)
Lemma C4_witness :
  example_JSON_parse (example_decoder_end (payload rejected)) = inl rejected
  ∧ (example_message 0%nat (payload rejected) false example_world).1.1 = Return tt
  ∧ closed (example_message 0%nat (payload rejected) false example_world).2
    = [0%nat].
Proof.
  split; [reflexivity|].
  pose proof (C4_registry_failures nat example_processMessage
                example_decoder_end example_JSON_parse JSON.stringify
                0%nat (payload rejected) false example_world rejected
                (TrackerError "rejected") eq_refl eq_refl) as H.
  destruct H as (H1 & H2 & _). split; assumption.
Defined.

(** The payload of the specification's scenario does not decode. *)
Lemma C5_witness :
  example_JSON_parse (example_decoder_end not_json)
  = inr (OtherError "SyntaxError" "Unexpected token in JSON")
  ∧ closed (example_message 0%nat not_json false example_world).2 = [0%nat]
  ∧ processMessage_calls (example_message 0%nat not_json false example_world).2
    = [].
Proof.
  split; [reflexivity|].
  pose proof (C5_undecodable_payload nat example_processMessage
                example_disconnectPeer example_decoder_end example_JSON_parse
                JSON.stringify 0%nat "/" not_json false 1000 [] example_world
                _ eq_refl) as H.
  destruct H as (_ & _ & H1 & H2 & _). split; assumption.
Defined.

(** C6, the claim as stated, fails at log level 2: the level is among
    those the claim names, and the drain handler logs nothing. *)
Lemma C6_counterexample :
  let w := at_level nat (JNum 2) example_world in
  (strict_eq_num (logLevel (this w)) 1 || strict_eq_num (logLevel (this w)) 2)
  = true
  ∧ (drain nat 0%nat 17 w).2 = []
  ∧ ¬ (console Info [V (JStr "ws backpressure"); V (JNum 17)]
       ∈ (drain nat 0%nat 17 w).2).
Proof.
  split; [reflexivity|]. split; [reflexivity|].
  intros H. inversion H.
Qed.

(** A caller who provides the port keeps the default host. *)
Lemma C7_witness :
  js_wf example_settings = true
  ∧ prop_lookup "host"
      (own_props (js_get "server" (settings (constructor example_settings))))
    = match prop_lookup "host" (own_props (js_get "server" example_settings)) with
      | Some v => Some v
      | None => prop_lookup "host" default_server
      end.
Proof.
  split; [reflexivity|].
  pose proof (C7_settings_merge example_settings "host" eq_refl) as H.
  destruct H as (_ & H & _). exact H.
Defined.



Lemma example_utf8_decoder_agrees bytes text :
  utf8_decode bytes = Some text → example_utf8_decoder_end bytes = text.
Proof. intros H. unfold example_utf8_decoder_end. rewrite H. reflexivity. Qed.

Lemma example_JSON_parse_agrees text x :
  JSON.parse text = JSON.Ok x → example_JSON_parse text = inl x.
Proof. intros H. unfold example_JSON_parse. rewrite H. reflexivity. Qed.



Lemma example_bound_well : bound_well nat example_bound.
Proof.
  intros ws p H. unfold example_bound in H. cbn [peer_prop] in H.
  apply lookup_singleton_Some in H. destruct H as [<- <-]. reflexivity.
Qed.

(** The default level is 0: the lifetime of the example logs nothing. *)
Lemma silent_unless_level_1_or_2_witness :
  strict_eq_num (logLevel (this example_world)) 1 = false
  ∧ strict_eq_num (logLevel (this example_world)) 2 = false
  ∧ quiet (all_effects (example_run example_lifetime example_world).2)
    = all_effects (example_run example_lifetime example_world).2.
Proof.
  split; [reflexivity|]. split; [reflexivity|].
  exact (silent_unless_level_1_or_2 nat example_processMessage
           example_disconnectPeer example_decoder_end example_JSON_parse
           JSON.stringify example_lifetime example_world eq_refl eq_refl).
Defined.

(** The bound connection of the example stays well bound over a second
    connection's lifetime. *)
Lemma bindings_stay_well_formed_witness :
  bound_well nat example_bound
  ∧ bound_well nat
      (example_run [Open 1%nat "/"; Message 1%nat (payload hello) false]
         example_bound).1.
Proof.
  pose proof example_bound_well as Hw.
  split; [exact Hw|].
  pose proof (bindings_stay_well_formed nat example_processMessage
                example_disconnectPeer example_decoder_end example_JSON_parse
                JSON.stringify
                [Open 1%nat "/"; Message 1%nat (payload hello) false]
                example_bound Hw) as H.
  destruct H as (H & _). exact H.
Defined.

(** Closing the bound connection of the example disconnects its identity
    once. *)
Lemma no_identity_is_disconnected_twice_witness :
  bound_well nat example_bound
  ∧ NoDup (disconnectPeer_calls
             (all_effects
                (example_run [Close 0%nat 1000 []; Close 0%nat 1000 []]
                   example_bound).2)).
Proof.
  pose proof example_bound_well as Hw.
  split; [exact Hw|].
  pose proof (no_identity_is_disconnected_twice nat example_processMessage
                example_disconnectPeer example_decoder_end example_JSON_parse
                JSON.stringify [Close 0%nat 1000 []; Close 0%nat 1000 []]
                example_bound Hw) as H.
  destruct H as (H & _). exact H.
Defined.

(** The lifetime of connection 0 leaves connection 1 alone. *)
Lemma other_connections_are_left_alone_witness :
  forallb (λ ev, negb (bool_decide (event_ws ev = 1%nat))) example_lifetime
  = true
  ∧ created 1%nat (all_effects (example_run example_lifetime example_world).2)
    = [].
Proof.
  split; [reflexivity|].
  pose proof (other_connections_are_left_alone nat example_processMessage
                example_disconnectPeer example_decoder_end example_JSON_parse
                JSON.stringify 1%nat example_lifetime example_world eq_refl)
    as H.
  destruct H as (_ & H & _). exact H.
Defined.

(** The failure of the registry on [crash] leaves the message handler. *)
Lemma handlers_raise_only_what_the_registry_throws_witness :
  raised (example_deliver (Message 0%nat (payload crash) false) example_world).2
  = Some (OtherError "TypeError" "crash")
  ∧ instanceof_TrackerError (OtherError "TypeError" "crash") = false.
Proof.
  split; [reflexivity|].
  pose proof (handlers_raise_only_what_the_registry_throws nat
                example_processMessage example_disconnectPeer
                example_decoder_end example_JSON_parse JSON.stringify
                (Message 0%nat (payload crash) false) example_world
                (OtherError "TypeError" "crash") eq_refl) as H.
  destruct H as (json & _ & _ & H). exact H.
Defined.

(** A failing [disconnectPeer] at the close of the bound connection. *)
Lemma close_when_disconnectPeer_throws_witness :
  peer_prop example_bound !! 0%nat = Some 0%nat
  ∧ throws (failing_disconnectPeer (tracker example_bound)
              (heap example_bound) 0%nat)
    = Some (OtherError "Error" "peer is not known")
  ∧ (close nat failing_disconnectPeer JSON.stringify 0%nat 1000 []
       example_bound).1.1
    = Raise (OtherError "Error" "peer is not known").
Proof.
  split; [reflexivity|]. split; [reflexivity|].
  rewrite (close_when_disconnectPeer_throws nat failing_disconnectPeer
             JSON.stringify 0%nat 1000 [] example_bound 0%nat
             (OtherError "Error" "peer is not known") eq_refl eq_refl).
  reflexivity.
Defined.

(** The identity bound to connection 0 writes to connection 0. *)
Lemma bound_identity_sends_on_its_connection_witness :
  bound_well nat example_bound
  ∧ peer_prop example_bound !! 0%nat = Some 0%nat
  ∧ ∃ ctx,
      heap example_bound !! 0%nat = Some ctx
      ∧ sendMessage nat JSON.stringify 0%nat hello example_bound
        = (Return tt, example_bound,
           ws_send 0%nat (JSON.stringify hello) false false
           :: logs nat 2 Log
                [V (JStr "out"); V (peer_label (peer_id ctx)); V hello]
                example_bound).
Proof.
  pose proof example_bound_well as Hw.
  split; [exact Hw|]. split; [reflexivity|].
  exact (bound_identity_sends_on_its_connection nat JSON.stringify 0%nat
           0%nat hello example_bound Hw eq_refl).
Defined.

(** After the lifetime of the example no connection is open, and none is
    bound. *)
Lemma bindings_only_of_open_connections_witness :
  transport_ok ∅ example_lifetime = true
  ∧ dom (peer_prop example_world) ⊆ (∅ : gset conn)
  ∧ dom (peer_prop (example_run example_lifetime example_world).1)
    ⊆ live_after ∅ example_lifetime.
Proof.
  assert (dom (peer_prop example_world) ⊆ (∅ : gset conn)) as Hd.
  { cbn [peer_prop initial_world]. rewrite dom_empty_L. reflexivity. }
  split; [reflexivity|]. split; [exact Hd|].
  pose proof (bindings_only_of_open_connections nat example_processMessage
                example_disconnectPeer example_decoder_end example_JSON_parse
                JSON.stringify ∅ example_lifetime example_world eq_refl Hd)
    as H.
  destruct H as (H & _). exact H.
Defined.

(** A first message that the registry rejects binds the connection all the
    same. *)
Lemma decodable_message_binds_its_connection_witness :
  example_JSON_parse (example_decoder_end (payload rejected)) = inl rejected
  ∧ peer_prop
      (example_deliver (Message 0%nat (payload rejected) false)
         example_world).1 !! 0%nat
    = Some 0%nat.
Proof.
  split; [reflexivity|].
  pose proof (decodable_message_binds_its_connection nat
                example_processMessage example_disconnectPeer
                example_decoder_end example_JSON_parse JSON.stringify
                0%nat (payload rejected) false example_world rejected
                eq_refl) as H.
  destruct H as (H & _). exact H.
Defined.

(** Settings that name a key file select the TLS application. *)
Lemma tls_when_key_file_name_is_given_witness :
  js_wf example_tls_settings = true
  ∧ app_ (constructor example_tls_settings) = SSLApp.
Proof.
  split; [reflexivity|].
  exact (tls_when_key_file_name_is_given example_tls_settings eq_refl).
Defined.

(** The caller's port and the default host in the rejection. *)
Lemma run_rejects_with_the_effective_address_witness :
  js_wf example_settings = true
  ∧ truthy (JBool false) = false
  ∧ run (constructor example_settings) [JBool false; JBool true]
    = Some (Rejected (OtherError "Error" "failed to listen to 0.0.0.0:9000")).
Proof.
  split; [reflexivity|]. split; [reflexivity|].
  exact (run_rejects_with_the_effective_address example_settings
           (JBool false) [JBool true] "0.0.0.0" "9000"
           eq_refl eq_refl eq_refl eq_refl).
Defined.

(** Settings without a log level: silence. *)
Lemma silent_by_default_witness :
  js_wf example_settings = true
  ∧ quiet (all_effects
             (example_run example_lifetime
                (initial_world nat 0%nat example_settings)).2)
    = all_effects
        (example_run example_lifetime
           (initial_world nat 0%nat example_settings)).2.
Proof.
  split; [reflexivity|].
  exact (silent_by_default nat example_processMessage example_disconnectPeer
           example_decoder_end example_JSON_parse JSON.stringify 0%nat
           example_settings example_lifetime eq_refl eq_refl eq_refl).
Defined.

(** The route of a gateway whose caller set the port only. *)
Lemma route_has_the_effective_settings_witness :
  js_wf example_settings = true
  ∧ pattern (buildApplication (constructor example_settings)) = JStr "/".
Proof.
  split; [reflexivity|].
  rewrite (route_has_the_effective_settings example_settings eq_refl).
  reflexivity.
Defined.
